(** * solsmt: the SMT-LIB2 front end of [tools/solsmt.cpp]

    A shallow embedding of the reader ([SMTLib2Parser]), the elaborator
    ([toSMTUtilExpression]) and the command loop ([main]) of the tool,
    followed by the properties of the specification settled against it. *)

From Stdlib Require Import Strings.String Strings.Ascii Arith.PeanoNat Lia.
From Stdlib Require Import Numbers.DecimalString.
From stdpp Require Import base option list gmap strings.

Local Open Scope string_scope.
Local Open Scope list_scope.
#[local] Set Warnings "-register-all".

(** ** Characters *)

Definition NUL : ascii := Ascii.zero.

Definition ascii_eqb (a b : ascii) : bool := Ascii.eqb a b.

(** Modelled from the spec: [liblangutil/Common.h] is not among the sources;
    the "fixed whitespace-character predicate" is taken to be space, line
    feed, tab and carriage return. *)
Definition isWhiteSpace (c : ascii) : bool :=
  ascii_eqb c " " || ascii_eqb c "010" || ascii_eqb c "009" || ascii_eqb c "013".

(** Modelled from the spec: the header that declares [isDigit] is not among
    the sources; a digit is one of the characters 0 to 9. *)
Definition isDigit (c : ascii) : bool :=
  (48 <=? nat_of_ascii c)%nat && (nat_of_ascii c <=? 57)%nat.

(** ** The generic tree: [struct SMTLib2Expression] *)

(** [variant<string_view, vector<SMTLib2Expression>> data] *)
Inductive SMTLib2Expression : Type :=
| Atom (sv : string)
| List (subExpr : list SMTLib2Expression).

(** [P] holds of every node strictly below [e]. *)
Fixpoint descendants (P : SMTLib2Expression -> Prop) (e : SMTLib2Expression) : Prop :=
  match e with
  | Atom _ => True
  | List l =>
      (fix all (l : list SMTLib2Expression) : Prop :=
         match l with
         | [] => True
         | x :: l' => (P x /\ descendants P x) /\ all l'
         end) l
  end.

(** ** [class SMTLib2Parser] *)

Module SMTLib2Parser.
Section Parser.

(** [string_view const m_data]; the mutable member [m_pos] is threaded
    through the functions below as an explicit position. *)
Variable m_data : string.

Definition size : nat := String.length m_data.

(** [m_pos < m_data.size() ? m_data[m_pos] : 0] *)
Definition token (m_pos : nat) : ascii :=
  match String.get m_pos m_data with
  | Some c => c
  | None => NUL
  end.

Definition advance (m_pos : nat) : nat := S m_pos.

(** [while (isWhiteSpace(token())) advance();]  The loop runs at most once
    per remaining character: [token] is 0 past the end, which is no
    white space. *)
Fixpoint skipWhitespace_loop (n : nat) (m_pos : nat) : nat :=
  match n with
  | O => m_pos
  | S n' =>
      if isWhiteSpace (token m_pos)
      then skipWhitespace_loop n' (advance m_pos)
      else m_pos
  end.

Definition skipWhitespace (m_pos : nat) : nat :=
  skipWhitespace_loop (size - m_pos) m_pos.

(** The [while (m_pos < m_data.size())] loop of [parseToken]. *)
Fixpoint parseToken_loop (n : nat) (start : nat) (isPipe : bool) (m_pos : nat) : nat :=
  match n with
  | O => m_pos
  | S n' =>
      if (m_pos <? size)%nat then
        let c := token m_pos in
        if isPipe && ((start <? m_pos)%nat && ascii_eqb c "|") then
          advance m_pos
        else if negb isPipe && (isWhiteSpace c || ascii_eqb c "(" || ascii_eqb c ")") then
          m_pos
        else
          parseToken_loop n' start isPipe (advance m_pos)
      else m_pos
  end.

(** [parseToken]: the atom and the position after it. *)
Definition parseToken (m_pos : nat) : string * nat :=
  let m_pos := skipWhitespace m_pos in
  let start := m_pos in
  let isPipe := ascii_eqb (token m_pos) "|" in
  let m_pos := parseToken_loop (size - m_pos) start isPipe m_pos in
  (substring start (m_pos - start) m_data, m_pos).

(** [token() != 0 && token() != ')'], the condition of the [while] loop
    of [parseExpression]. *)
Definition moreSubExpressions (m_pos : nat) : bool :=
  negb (ascii_eqb (token m_pos) NUL) && negb (ascii_eqb (token m_pos) ")").

(** [parseExpression], with the [while] loop over the sub-expressions as
    [parseSubExpressions].  Both recurse on a bound of the number of calls
    still to come; [None] stands for an exhausted bound and for nothing
    in the source ([parseExpression_total] shows it is never returned
    by [parseExpression] below). *)
Fixpoint parseExpression_fuel (fuel : nat) (m_pos : nat)
  : option (SMTLib2Expression * nat) :=
  match fuel with
  | O => None
  | S fuel' =>
      let m_pos := skipWhitespace m_pos in
      if ascii_eqb (token m_pos) "(" then
        match parseSubExpressions fuel' (advance m_pos) with
        | Some (subExpressions, m_pos) =>
            let m_pos :=
              if ascii_eqb (token m_pos) ")" then advance m_pos else m_pos in
            Some (List subExpressions, m_pos)
        | None => None
        end
      else
        let '(sv, m_pos) := parseToken m_pos in
        Some (Atom sv, m_pos)
  end
with parseSubExpressions (fuel : nat) (m_pos : nat)
  : option (list SMTLib2Expression * nat) :=
  match fuel with
  | O => None
  | S fuel' =>
      if moreSubExpressions m_pos then
        match parseExpression_fuel fuel' m_pos with
        | Some (e, m_pos) =>
            let m_pos := skipWhitespace m_pos in
            match parseSubExpressions fuel' m_pos with
            | Some (subExpressions, m_pos) => Some (e :: subExpressions, m_pos)
            | None => None
            end
        | None => None
        end
      else Some ([], m_pos)
  end.

Definition parseFuel (m_pos : nat) : nat := 2 * (size - m_pos) + 2.

Definition parseExpression (m_pos : nat) : option (SMTLib2Expression * nat) :=
  parseExpression_fuel (parseFuel m_pos) m_pos.

(** [m_data.substr(m_pos)] *)
Definition remainingInput (m_pos : nat) : string :=
  substring m_pos (size - m_pos) m_data.

(** A text without the character 0, which [token] also returns for the
    end of the input. *)
Definition noNUL : Prop := forall i, String.get i m_data <> Some NUL.

(** A text without the quote character of atoms. *)
Definition noPipe : Prop := forall i, String.get i m_data <> Some "|"%char.

(** [n] successive calls of [parseExpression] on one parser: the
    expressions and the position reached. *)
Fixpoint parseN (n : nat) (m_pos : nat) : option (list SMTLib2Expression * nat) :=
  match n with
  | O => Some ([], m_pos)
  | S n' =>
      match parseExpression m_pos with
      | Some (e, m_pos) =>
          match parseN n' m_pos with
          | Some (es, m_pos) => Some (e :: es, m_pos)
          | None => None
          end
      | None => None
      end
  end.

End Parser.

(** A result of a parser on the remaining input, in positions of the
    whole text: [k] characters further. *)
Definition moved {A : Type} (k : nat) (r : option (A * nat)) : option (A * nat) :=
  match r with
  | Some (a, pos) => Some (a, pos + k)
  | None => None
  end.

(** Two positions, in a text and in the text with one more character, that
    are the same position of the text or its end and the end of the longer
    one. *)
Definition alongside (m_data : string) (pos pos' : nat) : Prop :=
  (pos' = pos /\ pos <= size m_data)%nat \/ (pos = size m_data /\ pos' = S (size m_data)).

(** [n] rounds of the scheme of [main]: a new parser on the input that the
    previous one left. *)
Fixpoint reparseN (n : nat) (inputToParse : string)
  : option (list SMTLib2Expression * string) :=
  match n with
  | O => Some ([], inputToParse)
  | S n' =>
      match parseExpression inputToParse 0 with
      | Some (e, m_pos) =>
          match reparseN n' (remainingInput inputToParse m_pos) with
          | Some (es, rest) => Some (e :: es, rest)
          | None => None
          end
      | None => None
      end
  end.

End SMTLib2Parser.

(** What the [while] loop of [parseExpression] collects from [m_pos] on,
    told by the calls it makes: as long as [token] is neither 0 nor the
    closing parenthesis, the node that [parseExpression] returns there is
    the next element, and the loop goes on after the white space behind
    it; [stop] is where the loop ends. *)
Inductive readsSubExpressions (m_data : string)
  : nat -> list SMTLib2Expression -> nat -> Prop :=
| readsSubExpressions_end m_pos :
    SMTLib2Parser.moreSubExpressions m_data m_pos = false ->
    readsSubExpressions m_data m_pos [] m_pos
| readsSubExpressions_next m_pos e m_pos' subExpressions stop :
    SMTLib2Parser.moreSubExpressions m_data m_pos = true ->
    SMTLib2Parser.parseExpression m_data m_pos = Some (e, m_pos') ->
    readsSubExpressions m_data (SMTLib2Parser.skipWhitespace m_data m_pos')
      subExpressions stop ->
    readsSubExpressions m_data m_pos (e :: subExpressions) stop.

(** ** [SMTLib2Expression::toString] *)

(** Modelled from the spec: [joinHumanReadable] of libsolutil is not among
    the sources; it is taken to put the separator between consecutive
    elements. *)
Definition joinHumanReadable (formatted : list string) (separator : string) : string :=
  String.concat separator formatted.

Fixpoint toString (e : SMTLib2Expression) : string :=
  match e with
  | Atom _sv => _sv
  | List _subExpr => "(" +:+ joinHumanReadable (map toString _subExpr) " " +:+ ")"
  end.

(** ** Texts and the trees that print to them *)

(** A text in which the character [c] does not occur. *)
Definition without (c : ascii) (s : string) : Prop :=
  forall i, String.get i s <> Some c.

(** The characters that end an unquoted atom in [parseToken]. *)
Definition isDelimiter (c : ascii) : bool :=
  isWhiteSpace c || ascii_eqb c "(" || ascii_eqb c ")".

(** The string [s] stands in [data] from position [pos] on. *)
Definition reads (data : string) (pos : nat) (s : string) : Prop :=
  forall i c, String.get i s = Some c -> String.get (pos + i) data = Some c.

(** Position [pos] is the end of [data] or holds a delimiter. *)
Definition atEnd (data : string) (pos : nat) : Prop :=
  (SMTLib2Parser.size data <= pos)%nat \/
  isDelimiter (SMTLib2Parser.token data pos) = true.

(** An unquoted atom that [parseToken] reads back whole: not empty, no
    delimiter in it, and neither the quote nor the character 0 in front. *)
Definition plainAtom (sv : string) : bool :=
  match sv with
  | EmptyString => false
  | String c _ =>
      negb (ascii_eqb c NUL) && negb (ascii_eqb c "|")
      && forallb (fun c => negb (isDelimiter c)) (list_ascii_of_string sv)
  end.

(** The trees whose atoms are unquoted atoms as above or quoted atoms
    [|body|] with no further quote inside. *)
Inductive printable : SMTLib2Expression -> Prop :=
| printable_plain sv : plainAtom sv = true -> printable (Atom sv)
| printable_quoted body : without "|" body -> printable (Atom ("|" +:+ body +:+ "|"))
| printable_list l : Forall printable l -> printable (List l).

(** The node [e] is read back from its text wherever the text stands,
    followed by a delimiter or the end. *)
Definition readsBack (e : SMTLib2Expression) : Prop :=
  forall data pos fuel r,
    reads data pos (toString e) ->
    atEnd data (pos + String.length (toString e)) ->
    SMTLib2Parser.parseExpression_fuel data fuel pos = Some r ->
    r = (e, pos + String.length (toString e)).

(** A text that is empty or starts with a delimiter. *)
Definition startsDelimited (rest : string) : Prop :=
  match rest with
  | EmptyString => True
  | String c _ => isDelimiter c = true
  end.

(** ** Sorts and elaborated expressions ([libsmtutil]) *)

(** [SortProvider::realSort] and [SortProvider::boolSort], the two sorts the
    tool hands out. *)
Inductive Sort : Type := realSort | boolSort.

#[global] Instance Sort_eq_dec : EqDecision Sort.
Proof. solve_decision. Defined.

(** [smtutil::Expression]: a name, the arguments and the sort. *)
Inductive Expression : Type :=
| mkExpression (name : string) (arguments : list Expression) (sort : Sort).

Definition sort (e : Expression) : Sort :=
  match e with mkExpression _ _ s => s end.

(** ** Failure *)

(** What a C++ call can throw here: [std::get] on the wrong alternative,
    [map::at] on an absent key, a failed [solAssert], and the [u256]
    constructor on a string that is no number. *)
Inductive exception : Type :=
| bad_variant_access
| out_of_range
| InternalCompilerError
| runtime_error.

(** A computation returns, throws, or has undefined behaviour ([front] or
    [back] of an empty sequence). *)
Inductive result (A : Type) : Type :=
| Ok (a : A)
| Throw (e : exception)
| Undefined.
Arguments Ok {A} a.
Arguments Throw {A} e.
Arguments Undefined {A}.

Definition bind {A B : Type} (r : result A) (k : A -> result B) : result B :=
  match r with
  | Ok a => k a
  | Throw e => Throw e
  | Undefined => Undefined
  end.

Notation "'let*' x ':=' c 'in' k" := (bind c (fun x => k))
  (at level 10, x pattern, c at level 100, k at level 200).

(** [solAssert(b)] *)
Definition solAssert (b : bool) : result unit :=
  if b then Ok tt else Throw InternalCompilerError.

(** [get<string_view>(e.data)] and [get<vector<SMTLib2Expression>>(e.data)];
    where a recursive call descends into the vector, the functions below
    write the same case distinction out, with [bad_variant_access] for the
    atom. *)
Definition get_string_view (e : SMTLib2Expression) : result string :=
  match e with
  | Atom sv => Ok sv
  | List _ => Throw bad_variant_access
  end.

Definition get_vector (e : SMTLib2Expression) : result (list SMTLib2Expression) :=
  match e with
  | Atom _ => Throw bad_variant_access
  | List v => Ok v
  end.

(** The specification's [MalformedExpression]: the elaborator stopped with
    an exception. *)
Definition MalformedExpression {A : Type} (r : result A) : Prop :=
  exists e, r = Throw e.

(** The sort environment, [map<string, SortPointer>]. *)
Abbreviation SortEnv := (gmap string Sort).

(** ** The elaborator *)

Section Elaborator.

(** The [u256] constructor from a string and [u256::str] belong to the
    multiprecision library: [u256 s] is the number read from [s], [None]
    when the constructor throws; [str] prints a number. *)
Variable u256 : string -> option N.
Variable str : N -> string.

(** [_atom.size() >= 3 && _atom.at(size - 1) == '0' && _atom.at(size - 2) == '.'] *)
Definition endsWithDotZero (_atom : string) : bool :=
  (3 <=? String.length _atom)%nat
  && bool_decide (String.get (String.length _atom - 1) _atom = Some "0"%char)
  && bool_decide (String.get (String.length _atom - 2) _atom = Some "."%char).

(** [parseRational]; every recursive call is on a shorter atom, so the
    length of the atom bounds the depth. *)
Fixpoint parseRational_fuel (fuel : nat) (_atom : string) : option N :=
  match fuel with
  | O => u256 _atom
  | S fuel' =>
      if endsWithDotZero _atom
      then parseRational_fuel fuel' (substring 0 (String.length _atom - 2) _atom)
      else u256 _atom
  end.

Definition parseRational (_atom : string) : option N :=
  parseRational_fuel (String.length _atom) _atom.

(** [set<string> boolOperators] *)
Definition boolOperators : gset string :=
  {[ "and"; "or"; "not"; "="; "<"; ">"; "<="; ">="; "=>" ]}.

Definition contains (s : gset string) (x : string) : bool := bool_decide (x ∈ s).

Section Loops.
(** The recursive calls of the two loops. *)
Variable elaborate : SMTLib2Expression -> SortEnv -> result Expression.

(** The [for] loop over the bindings of a [let], followed by the
    elaboration of the body: [_variableSorts] is the map the function
    was given, [subSorts] its local copy, [arguments] the vector built
    so far.  The node of a binding carries the sort of its value
    ([replacement.sort], read before [replacement] is moved from). *)
Fixpoint letLoop (_variableSorts : SortEnv) (body : SMTLib2Expression)
    (bindings : list SMTLib2Expression)
    (subSorts : SortEnv) (arguments : list Expression)
  : result (list Expression * Sort) :=
  match bindings with
  | binding :: bindings' =>
      match binding with
      | Atom _ => Throw bad_variant_access
      | List bindingElements =>
          let* _ := solAssert (length bindingElements =? 2)%nat in
          match bindingElements with
          | [e0; e1] =>
              let* varName := get_string_view e0 in
              let* replacement := elaborate e1 _variableSorts in
              letLoop _variableSorts body bindings'
                (<[varName := sort replacement]> subSorts)
                (arguments ++ [mkExpression varName [replacement] (sort replacement)])
          | _ => Throw InternalCompilerError
          end
      end
  | [] =>
      let* b := elaborate body subSorts in
      Ok (arguments ++ [b], sort b)
  end.

(** [for (size_t i = 1; i < _subExpr.size(); i++)] *)
Fixpoint argumentsLoop (_variableSorts : SortEnv)
    (rest : list SMTLib2Expression) (arguments : list Expression)
  : result (list Expression) :=
  match rest with
  | e :: rest' =>
      let* a := elaborate e _variableSorts in
      argumentsLoop _variableSorts rest' (arguments ++ [a])
  | [] => Ok arguments
  end.
End Loops.

(** [arguments.back().sort] *)
Definition back_sort (arguments : list Expression) : result Sort :=
  match last arguments with
  | Some a => Ok (sort a)
  | None => Undefined
  end.

Fixpoint toSMTUtilExpression (_expr : SMTLib2Expression) (_variableSorts : SortEnv)
    {struct _expr} : result Expression :=
  match _expr with
  | Atom _atom =>
      match _atom with
      | EmptyString => Undefined
      | String front _ =>
          if isDigit front || ascii_eqb front "." then
            match parseRational _atom with
            | Some n => Ok (mkExpression (str n) [] realSort)
            | None => Throw runtime_error
            end
          else
            match _variableSorts !! _atom with
            | Some s => Ok (mkExpression _atom [] s)
            | None => Throw out_of_range
            end
      end
  | List _subExpr =>
      match _subExpr with
      | [] => Undefined
      | front :: rest =>
          let* op := get_string_view front in
          if String.eqb op "let" then
            let subSorts := _variableSorts in
            let* _ := solAssert (length _subExpr =? 3)%nat in
            match rest with
            | [bindings; body] =>
                match bindings with
                | Atom _ => Throw bad_variant_access
                | List bindings =>
                    let* r := letLoop toSMTUtilExpression _variableSorts body
                                bindings subSorts [] in
                    Ok (mkExpression op r.1 r.2)
                end
            | _ => Throw InternalCompilerError
            end
          else
            let* arguments := argumentsLoop toSMTUtilExpression _variableSorts rest [] in
            let* s :=
              (if contains boolOperators op then Ok boolSort else back_sort arguments) in
            Ok (mkExpression op arguments s)
      end
  end.

End Elaborator.

(** ** Elaboration of a sequence, as the specification words it *)

Section ElaborateAll.

Variable u256 : string -> option N.
Variable str : N -> string.

Abbreviation elab := (toSMTUtilExpression u256 str).

(** Elaborating a sequence of nodes against one environment, left to
    right, stopping at the first that fails: the reading of "each element
    is elaborated in order against E" the loops are compared with. *)
Fixpoint elaborateAll (nodes : list SMTLib2Expression) (E : SortEnv)
  : result (list Expression) :=
  match nodes with
  | [] => Ok []
  | n :: nodes' =>
      let* a := elab n E in
      let* rest := elaborateAll nodes' E in
      Ok (a :: rest)
  end.

(** The environment a [let] body sees: [E] with every bound name set, in
    the order of the bindings. *)
Definition extend (E : SortEnv) (bound : list (string * Sort)) : SortEnv :=
  fold_left (fun m b => <[b.1 := b.2]> m) bound E.

(** The pseudo-node of a binding. *)
Definition bindingNode (x : string) (v : Expression) : Expression :=
  mkExpression x [v] (sort v).

(** The source form of a binding. *)
Definition mkBinding (b : string * SMTLib2Expression) : SMTLib2Expression :=
  List [Atom b.1; b.2].

End ElaborateAll.

(** ** Shapes on which the elaborator is defined *)

Section Shapes.

Variable P : SMTLib2Expression -> Prop.

(** [P] of every node of a list. *)
Fixpoint allNodes (l : list SMTLib2Expression) : Prop :=
  match l with
  | [] => True
  | x :: l' => P x /\ allNodes l'
  end.

(** [P] of the values of the bindings the [let] loop gets to: those in
    front of the first binding that is not a list of two elements. *)
Fixpoint bindingValues (bindings : list SMTLib2Expression) : Prop :=
  match bindings with
  | List [_; v] :: bindings' => P v /\ bindingValues bindings'
  | _ => True
  end.

End Shapes.

(** [P] of every atom of a tree. *)
Fixpoint everyAtom (P : string -> Prop) (e : SMTLib2Expression) : Prop :=
  match e with
  | Atom sv => P sv
  | List l => allNodes (everyAtom P) l
  end.

(** An atom as [parseToken] delimits it: it starts with the quote, or no
    character of it is white space or a parenthesis. *)
Definition cleanAtom (sv : string) : Prop :=
  (exists t, sv = String "|" t) \/
  (forall j c, String.get j sv = Some c -> isDelimiter c = false).

(** The trees on which [toSMTUtilExpression] takes neither [front] of an
    empty atom or list nor [back] of an empty argument vector, at any node
    it gets to. *)
Fixpoint definedShape (e : SMTLib2Expression) : Prop :=
  match e with
  | Atom _atom => _atom <> ""
  | List [] => False
  | List (List _ :: _) => True
  | List (Atom op :: rest) =>
      if String.eqb op "let" then
        match rest with
        | [List bindings; body] =>
            bindingValues definedShape bindings /\ definedShape body
        | _ => True
        end
      else
        allNodes definedShape rest /\
        (contains boolOperators op = true \/ rest <> [])
  end.

(** A node whose elaboration, once it succeeds, is the same in every
    larger environment. *)
Definition stable (u256 : string -> option N) (str : N -> string)
    (e : SMTLib2Expression) : Prop :=
  forall (E E' : SortEnv) r,
    E ⊆ E' ->
    toSMTUtilExpression u256 str e E = Ok r ->
    toSMTUtilExpression u256 str e E' = Ok r.

(** A node whose elaboration is never undefined, if it has the shape. *)
Definition defined (u256 : string -> option N) (str : N -> string)
    (e : SMTLib2Expression) : Prop :=
  definedShape e -> forall E : SortEnv, toSMTUtilExpression u256 str e E <> Undefined.

(** The sibling bindings of the specification: [(let ((x 1) (y x)) y)]. *)
Definition siblingLet : SMTLib2Expression :=
  List [Atom "let";
        List [List [Atom "x"; Atom "1"]; List [Atom "y"; Atom "x"]];
        Atom "y"].

(** ** The elaborator over a store of maps

    The same function with the maps as objects: [_variableSorts] is a
    reference (an index into the store of the maps alive), the [subSorts]
    of a [let] is a new object holding a copy, written by
    [subSorts[varName] = ...] and gone at the end of its scope. *)

Abbreviation Store := (list SortEnv).

Section StoreElaborator.

Variable u256 : string -> option N.
Variable str : N -> string.

(** The map a reference points to. *)
Definition deref (r : nat) (st : Store) : SortEnv := default ∅ (st !! r).

(** [map<string, SortPointer> subSorts = _variableSorts;] *)
Definition copy (r : nat) (st : Store) : nat * Store :=
  (length st, st ++ [deref r st]).

(** [subSorts[string(varName)] = replacement.sort;] *)
Definition assign (r : nat) (varName : string) (s : Sort) (st : Store) : Store :=
  alter (insert varName s) r st.

(** The end of the scope of the newest map. *)
Definition destroy (st : Store) : Store := removelast st.

Section Loops.
Variable elaborate : SMTLib2Expression -> nat -> Store -> result (Expression * Store).

Fixpoint letLoopS (_variableSorts : nat) (body : SMTLib2Expression)
    (bindings : list SMTLib2Expression)
    (subSorts : nat) (arguments : list Expression) (st : Store)
  : result (list Expression * Sort * Store) :=
  match bindings with
  | binding :: bindings' =>
      match binding with
      | Atom _ => Throw bad_variant_access
      | List bindingElements =>
          let* _ := solAssert (length bindingElements =? 2)%nat in
          match bindingElements with
          | [e0; e1] =>
              let* varName := get_string_view e0 in
              let* (replacement, st) := elaborate e1 _variableSorts st in
              letLoopS _variableSorts body bindings' subSorts
                (arguments ++ [mkExpression varName [replacement] (sort replacement)])
                (assign subSorts varName (sort replacement) st)
          | _ => Throw InternalCompilerError
          end
      end
  | [] =>
      let* (b, st) := elaborate body subSorts st in
      Ok (arguments ++ [b], sort b, st)
  end.

Fixpoint argumentsLoopS (_variableSorts : nat)
    (rest : list SMTLib2Expression) (arguments : list Expression) (st : Store)
  : result (list Expression * Store) :=
  match rest with
  | e :: rest' =>
      let* (a, st) := elaborate e _variableSorts st in
      argumentsLoopS _variableSorts rest' (arguments ++ [a]) st
  | [] => Ok (arguments, st)
  end.
End Loops.

Fixpoint toSMTUtilExpressionS (_expr : SMTLib2Expression) (_variableSorts : nat)
    (st : Store) {struct _expr} : result (Expression * Store) :=
  match _expr with
  | Atom _atom =>
      match _atom with
      | EmptyString => Undefined
      | String front _ =>
          if isDigit front || ascii_eqb front "." then
            match parseRational u256 _atom with
            | Some n => Ok (mkExpression (str n) [] realSort, st)
            | None => Throw runtime_error
            end
          else
            match deref _variableSorts st !! _atom with
            | Some s => Ok (mkExpression _atom [] s, st)
            | None => Throw out_of_range
            end
      end
  | List _subExpr =>
      match _subExpr with
      | [] => Undefined
      | front :: rest =>
          let* op := get_string_view front in
          if String.eqb op "let" then
            let '(subSorts, st) := copy _variableSorts st in
            let* _ := solAssert (length _subExpr =? 3)%nat in
            match rest with
            | [bindings; body] =>
                match bindings with
                | Atom _ => Throw bad_variant_access
                | List bindings =>
                    let* (arguments, s, st) :=
                      letLoopS toSMTUtilExpressionS _variableSorts body
                        bindings subSorts [] st in
                    Ok (mkExpression op arguments s, destroy st)
                end
            | _ => Throw InternalCompilerError
            end
          else
            let* (arguments, st) :=
              argumentsLoopS toSMTUtilExpressionS _variableSorts rest [] st in
            let* s :=
              (if contains boolOperators op then Ok boolSort else back_sort arguments) in
            Ok (mkExpression op arguments s, st)
      end
  end.

(** A node whose elaboration leaves the store alone: on a store in which
    the reference is valid, it returns what [toSMTUtilExpression] returns
    on the map referred to, and the store it started with. *)
Definition preserves (e : SMTLib2Expression) : Prop :=
  forall (r : nat) (st : Store), (r < length st)%nat ->
    toSMTUtilExpressionS e r st =
    let* x := toSMTUtilExpression u256 str e (deref r st) in Ok (x, st).

End StoreElaborator.

(** ** The command loop *)

(** [removeComments]: [inComment] holds between a [;] and the end of its
    line, the inner [while] of the source. *)
Fixpoint removeComments_from (inComment : bool) (_input : string) : string :=
  match _input with
  | EmptyString => EmptyString
  | String c rest =>
      if inComment then
        removeComments_from (negb (ascii_eqb c "010")) rest
      else if ascii_eqb c ";" then
        removeComments_from true rest
      else
        String c (removeComments_from false rest)
  end.

Definition removeComments (_input : string) : string :=
  removeComments_from false _input.

(** [command]: the atom at the head of a top-level form. *)
Definition command (_expr : SMTLib2Expression) : result string :=
  let* items := get_vector _expr in
  let* _ := solAssert (negb (bool_decide (items = []))) in
  match items with
  | front :: _ =>
      let* _ := solAssert (match front with Atom _ => true | List _ => false end) in
      get_string_view front
  | [] => Undefined
  end.

(** [CheckResult], as far as the tool tells the values apart. *)
Inductive CheckResult : Type := SATISFIABLE | UNSATISFIABLE | UNKNOWN.

(** The calls made on the [BooleanLPSolver]; the solver itself is outside
    the tool and is represented by the sequence of calls it has received. *)
Inductive SolverCall : Type :=
| declareVariable (name : string) (s : Sort)
| addAssertion (e : Expression)
| check.

(** The variables of [main] that live across iterations; [cout] holds the
    lines printed so far.  The trace written to [cerr] is left out. *)
Record State : Type := mkState {
  variableSorts : SortEnv;
  solver : list SolverCall;
  cout : list string
}.

Definition initialState : State :=
  {| variableSorts := ∅; solver := []; cout := [] |}.

(** How one iteration of the loop ends: with the next iteration, or with
    [return code]. *)
Inductive control : Type := Continue | Return (code : Z).

Section Main.

Variable u256 : string -> option N.
Variable str : N -> string.
(** The verdict of [solver.check({})] after the given calls. *)
Variable checkResult : list SolverCall -> CheckResult.
(** [readFileAsString] *)
Variable readFileAsString : string -> string.

(** The body of the [while] loop from [items] on, for the form [expr]. *)
Definition loopBody (expr : SMTLib2Expression) (st : State) : result (control * State) :=
  let* items := get_vector expr in
  let* cmd := command expr in
  if String.eqb cmd "set-info" then Ok (Continue, st)
  else if String.eqb cmd "declare-fun" then
    let* _ := solAssert (length items =? 4)%nat in
    match items with
    | [_; i1; i2; i3] =>
        let* variableName := get_string_view i1 in
        let* args := get_vector i2 in
        let* _ := solAssert (bool_decide (args = [])) in
        let* type := get_string_view i3 in
        let* _ := solAssert (String.eqb type "Real" || String.eqb type "Bool") in
        let sort := if String.eqb type "Real" then realSort else boolSort in
        Ok (Continue,
            {| variableSorts := <[variableName := sort]> (variableSorts st);
               solver := solver st ++ [declareVariable variableName sort];
               cout := cout st |})
    | _ => Throw InternalCompilerError
    end
  else if String.eqb cmd "define-fun" then Ok (Continue, st)
  else if String.eqb cmd "assert" then
    let* _ := solAssert (length items =? 2)%nat in
    match items with
    | [_; i1] =>
        let* e := toSMTUtilExpression u256 str i1 (variableSorts st) in
        Ok (Continue,
            {| variableSorts := variableSorts st;
               solver := solver st ++ [addAssertion e];
               cout := cout st |})
    | _ => Throw InternalCompilerError
    end
  else if String.eqb cmd "set-logic" then Ok (Continue, st)
  else if String.eqb cmd "check-sat" then
    let line :=
      match checkResult (solver st) with
      | SATISFIABLE => "sat"
      | UNSATISFIABLE => "unsat"
      | UNKNOWN => "unknown"
      end in
    Ok (Continue,
        {| variableSorts := variableSorts st;
           solver := solver st ++ [check];
           cout := cout st ++ [line] |})
  else if String.eqb cmd "exit" then Ok (Return 0, st)
  else Throw InternalCompilerError.

(** [while (!inputToParse.empty()) { ... } return 0;]  Each iteration
    builds a parser on [inputToParse] and continues on its
    [remainingInput].  [fuel] bounds the number of iterations; [None]
    is an exhausted bound. *)
Fixpoint mainLoop (fuel : nat) (inputToParse : string) (st : State)
  : option (result (Z * State)) :=
  match inputToParse with
  | EmptyString => Some (Ok (0%Z, st))
  | String _ _ =>
      match fuel with
      | O => None
      | S fuel' =>
          match SMTLib2Parser.parseExpression inputToParse 0 with
          | None => None
          | Some (expr, m_pos) =>
              let newInputToParse := SMTLib2Parser.remainingInput inputToParse m_pos in
              match loopBody expr st with
              | Ok (Continue, st') => mainLoop fuel' newInputToParse st'
              | Ok (Return code, st') => Some (Ok (code, st'))
              | Throw e => Some (Throw e)
              | Undefined => Some Undefined
              end
          end
      end
  end.

(** The tool on the text of its input file. *)
Definition run (content : string) : option (result (Z * State)) :=
  let input := removeComments content in
  mainLoop (S (String.length input)) input initialState.

(** [main]; [argv] includes the program name. *)
Definition main (argv : list string) : option (result (Z * State)) :=
  match argv with
  | [_; file] => run (readFileAsString file)
  | _ =>
      Some (Ok ((-1)%Z,
                {| variableSorts := ∅; solver := [];
                   cout := ["Usage: solsmt <smtlib2 fil>"] |}))
  end.

End Main.

(** The state after a successful [declare-fun]. *)
Definition declared (name : string) (s : Sort) (st : State) : State :=
  {| variableSorts := <[name := s]> (variableSorts st);
     solver := solver st ++ [declareVariable name s];
     cout := cout st |}.

(** The shape the source asks of a [declare-fun] form. *)
Definition declareFunShape (items : list SMTLib2Expression) : Prop :=
  length items = 4 /\
  items !! 2 = Some (List []) /\
  (items !! 3 = Some (Atom "Real") \/ items !! 3 = Some (Atom "Bool")).

(** ** What the state of [main] records *)

(** The sort of the last [declareVariable] for [x] among the calls. *)
Definition declaredSort (x : string) (calls : list SolverCall) : option Sort :=
  fold_left
    (fun acc call =>
       match call with
       | declareVariable y s => if String.eqb y x then Some s else acc
       | _ => acc
       end)
    calls None.

(** The number of [check] calls. *)
Definition checks (calls : list SolverCall) : nat :=
  length (List.filter (fun call => match call with check => true | _ => false end) calls).

(** The commands [main] knows. *)
Definition knownCommands : list string :=
  ["set-info"; "declare-fun"; "define-fun"; "assert"; "set-logic"; "check-sat"; "exit"].

(** The state after a successful [assert]. *)
Definition asserted (e : Expression) (st : State) : State :=
  {| variableSorts := variableSorts st;
     solver := solver st ++ [addAssertion e];
     cout := cout st |}.

(** The state of [main] in which the environment holds what was declared
    to the solver, and one verdict was printed for every [check]. *)
Definition consistent (st : State) : Prop :=
  (forall x, variableSorts st !! x = declaredSort x (solver st))
  /\ length (cout st) = checks (solver st)
  /\ Forall (fun line => In line ["sat"; "unsat"; "unknown"]) (cout st).

(** A text of white space only. *)
Definition allWhiteSpace (s : string) : Prop :=
  forall i c, String.get i s = Some c -> isWhiteSpace c = true.

(** A text that ends inside two open lists. *)
Definition unterminatedExample : string := "(assert (> x 0".

(** A line feed. *)
Definition newline : string := String "010" EmptyString.

(** ** An instance for the worked examples *)

(** A reader of decimal numerals, standing in for the [u256] constructor in
    the examples: digits only, reduced modulo 2^256. *)
Definition u256_decimal (s : string) : option N :=
  match s with
  | EmptyString => None
  | _ => option_map (fun d => (N.of_uint d mod 2 ^ 256)%N) (NilEmpty.uint_of_string s)
  end.

Definition str_decimal (n : N) : string := NilEmpty.string_of_uint (N.to_uint n).

Definition unknownVerdict (_ : list SolverCall) : CheckResult := UNKNOWN.


(** [n] times the suffix that [parseRational] strips. *)
Fixpoint dotZeros (n : nat) : string :=
  match n with
  | O => ""
  | S n' => dotZeros n' +:+ ".0"
  end.

(** * Properties *)

(** ** Worked examples of the reader *)

Example parse_assert :
  SMTLib2Parser.parseExpression "(assert (> x 0.0)) (check-sat)" 0
  = Some (List [Atom "assert"; List [Atom ">"; Atom "x"; Atom "0.0"]], 18).
Proof. reflexivity. Qed.

Example parse_pipe :
  SMTLib2Parser.parseExpression " (|a b| c" 0
  = Some (List [Atom "|a b|"; Atom "c"], 9).
Proof. reflexivity. Qed.

Example parse_blank_list :
  SMTLib2Parser.parseExpression "( )" 0 = Some (List [Atom ""], 3).
Proof. reflexivity. Qed.


(** ** The elaborator: applications and [let] *)

Lemma contains_boolOperators op :
  contains boolOperators op = true <->
  In op ["and"; "or"; "not"; "="; "<"; ">"; "<="; ">="; "=>"].
Proof.
  unfold contains, boolOperators. rewrite bool_decide_eq_true.
  rewrite !elem_of_union, !elem_of_singleton. simpl.
  split; intros H; repeat destruct H as [H|H]; subst; tauto.
Qed.

Section ElaboratorFacts.

Variable u256 : string -> option N.
Variable str : N -> string.

Abbreviation elab := (toSMTUtilExpression u256 str).
Abbreviation elaborateAll := (elaborateAll u256 str).

Lemma elaborateAll_Ok nodes E args :
  elaborateAll nodes E = Ok args <->
  Forall2 (fun n a => elab n E = Ok a) nodes args.
Proof.
  revert args. induction nodes as [|n nodes IH]; intros args; simpl.
  - split.
    + intros [= <-]. constructor.
    + intros H. inversion H. reflexivity.
  - split.
    + destruct (elab n E) as [a| |] eqn:Ha; simpl; try discriminate.
      destruct (elaborateAll nodes E) as [rest| |] eqn:Hr; simpl; try discriminate.
      intros [= <-]. constructor; [exact Ha | now apply IH].
    + intros H. inversion H as [|? a ? rest Hn Hrest]; subst.
      rewrite Hn. simpl. apply IH in Hrest. rewrite Hrest. reflexivity.
Qed.

Lemma argumentsLoop_elaborateAll E rest acc :
  argumentsLoop elab E rest acc =
  let* args := elaborateAll rest E in Ok (acc ++ args).
Proof.
  revert acc. induction rest as [|e rest IH]; intros acc; simpl.
  - now rewrite app_nil_r.
  - destruct (elab e E) as [a| |]; simpl; try reflexivity.
    rewrite IH. destruct (elaborateAll rest E); simpl; try reflexivity.
    now rewrite <- app_assoc.
Qed.

Lemma letLoop_elaborateAll E body xvs S acc :
  letLoop elab E body (map mkBinding xvs) S acc =
  let* vals := elaborateAll (map snd xvs) E in
  let* b := elab body (extend S (zip (map fst xvs) (map sort vals))) in
  Ok (acc ++ zip_with bindingNode (map fst xvs) vals ++ [b], sort b).
Proof.
  revert S acc. induction xvs as [|[x v] xvs IH]; intros S acc; simpl.
  - destruct (elab body S); reflexivity.
  - destruct (elab v E) as [a| |]; simpl; try reflexivity.
    rewrite IH.
    destruct (elaborateAll (map snd xvs) E) as [vals| |]; simpl; try reflexivity.
    destruct (elab body _); simpl; try reflexivity.
    now rewrite <- app_assoc.
Qed.

(** The form [(op a1 ... an)] for an operator other than [let]. *)
Lemma application_equation op rest E :
  op <> "let" ->
  elab (List (Atom op :: rest)) E =
  let* arguments := elaborateAll rest E in
  let* s := (if contains boolOperators op then Ok boolSort else back_sort arguments) in
  Ok (mkExpression op arguments s).
Proof.
  intros Hop. simpl.
  destruct (String.eqb op "let") eqn:Heq.
  - apply String.eqb_eq in Heq. contradiction.
  - rewrite argumentsLoop_elaborateAll.
    destruct (elaborateAll rest E); reflexivity.
Qed.

(** The form [(let ((x1 v1) ... (xn vn)) body)]. *)
Lemma let_equation xvs body E :
  elab (List [Atom "let"; List (map mkBinding xvs); body]) E =
  let* vals := elaborateAll (map snd xvs) E in
  let* b := elab body (extend E (zip (map fst xvs) (map sort vals))) in
  Ok (mkExpression "let" (zip_with bindingNode (map fst xvs) vals ++ [b]) (sort b)).
Proof.
  cbn -[letLoop]. rewrite letLoop_elaborateAll.
  destruct (elaborateAll (map snd xvs) E); simpl; try reflexivity.
  destruct (elab body _); reflexivity.
Qed.

End ElaboratorFacts.

(** ** Strings as character sequences *)

Abbreviation chars := list_ascii_of_string.

Section StringFacts.

Lemma chars_inj s t : chars s = chars t -> s = t.
Proof.
  intros H. rewrite <- (string_of_list_ascii_of_string s),
    <- (string_of_list_ascii_of_string t). now rewrite H.
Qed.

Lemma chars_length s : length (chars s) = String.length s.
Proof. induction s as [|c s IH]; simpl; [reflexivity | now rewrite IH]. Qed.

Lemma chars_get s n : String.get n s = chars s !! n.
Proof.
  revert n. induction s as [|c s IH]; intros [|n]; simpl; auto.
Qed.

Lemma chars_append s t : chars (s +:+ t) = chars s ++ chars t.
Proof. induction s as [|c s IH]; simpl; [reflexivity | now rewrite IH]. Qed.

Lemma chars_substring s n m : chars (substring n m s) = take m (drop n (chars s)).
Proof.
  revert n m. induction s as [|c s IH]; intros n m.
  - destruct n, m; reflexivity.
  - destruct n as [|n]; simpl.
    + destruct m as [|m]; simpl; [reflexivity|]. now rewrite IH.
    + apply IH.
Qed.

Lemma length_substring s n m :
  n + m <= String.length s -> String.length (substring n m s) = m.
Proof.
  intros H. rewrite <- chars_length, chars_substring, length_take, length_drop,
    chars_length. lia.
Qed.

Lemma substring_append_l s t : substring 0 (String.length s) (s +:+ t) = s.
Proof.
  apply chars_inj. rewrite chars_substring, chars_append, drop_0.
  rewrite <- chars_length. now rewrite take_app_length.
Qed.

Lemma length_append s t :
  String.length (s +:+ t) = String.length s + String.length t.
Proof. rewrite <- !chars_length, chars_append. apply length_app. Qed.

Lemma get_append_r s t n : String.get (String.length s + n) (s +:+ t) = String.get n t.
Proof.
  rewrite !chars_get, chars_append, <- chars_length.
  rewrite lookup_app_r by lia. f_equal. lia.
Qed.

Lemma get_ge s n : String.length s <= n -> String.get n s = None.
Proof.
  intros H. rewrite chars_get. apply lookup_ge_None. now rewrite chars_length.
Qed.

Lemma get_lt s n : n < String.length s -> exists c, String.get n s = Some c.
Proof.
  intros H. rewrite chars_get. apply lookup_lt_is_Some. now rewrite chars_length.
Qed.

(** A string of length at least two is its front followed by its last
    two characters. *)
Lemma split_last_two s c d :
  2 <= String.length s ->
  String.get (String.length s - 2) s = Some c ->
  String.get (String.length s - 1) s = Some d ->
  s = substring 0 (String.length s - 2) s +:+ String c (String d EmptyString).
Proof.
  intros Hlen Hc Hd. apply chars_inj.
  rewrite chars_append, chars_substring, drop_0. simpl.
  rewrite chars_get in Hc, Hd. rewrite <- chars_length in *.
  set (l := chars s) in *.
  rewrite <- (take_drop (length l - 2) l) at 1. f_equal.
  assert (Hdl : length (drop (length l - 2) l) = 2) by (rewrite length_drop; lia).
  destruct (drop (length l - 2) l) as [|x [|y [|z r]]] eqn:Hdrop; simpl in Hdl; try lia.
  assert (Hx : l !! (length l - 2 + 0) = Some x) by (rewrite <- lookup_drop, Hdrop; reflexivity).
  assert (Hy : l !! (length l - 2 + 1) = Some y) by (rewrite <- lookup_drop, Hdrop; reflexivity).
  replace (length l - 2 + 0) with (length l - 2) in Hx by lia.
  replace (length l - 2 + 1) with (length l - 1) in Hy by lia.
  congruence.
Qed.

End StringFacts.

(** ** Numeric atoms *)

Section NumericAtoms.

Variable u256 : string -> option N.
Variable str : N -> string.

Lemma endsWithDotZero_length a : endsWithDotZero a = true -> 3 <= String.length a.
Proof.
  unfold endsWithDotZero. rewrite !andb_true_iff, Nat.leb_le. tauto.
Qed.

(** One more unit of fuel than the length of the atom changes nothing. *)
Lemma parseRational_fuel_S fuel a :
  String.length a <= fuel ->
  parseRational_fuel u256 (S fuel) a = parseRational_fuel u256 fuel a.
Proof.
  revert a. induction fuel as [|fuel IH]; intros a Hlen.
  - simpl. destruct (endsWithDotZero a) eqn:He; [|reflexivity].
    apply endsWithDotZero_length in He. lia.
  - change (parseRational_fuel u256 (S (S fuel)) a) with
      (if endsWithDotZero a
       then parseRational_fuel u256 (S fuel) (substring 0 (String.length a - 2) a)
       else u256 a).
    change (parseRational_fuel u256 (S fuel) a) with
      (if endsWithDotZero a
       then parseRational_fuel u256 fuel (substring 0 (String.length a - 2) a)
       else u256 a).
    destruct (endsWithDotZero a) eqn:He; [|reflexivity].
    apply endsWithDotZero_length in He.
    apply IH. rewrite length_substring; lia.
Qed.

Lemma parseRational_fuel_enough fuel a :
  String.length a <= fuel ->
  parseRational_fuel u256 fuel a = parseRational u256 a.
Proof.
  unfold parseRational. induction 1 as [|fuel Hle IH]; [reflexivity|].
  now rewrite parseRational_fuel_S.
Qed.

(** The recursion of the source. *)
Lemma parseRational_equation a :
  parseRational u256 a =
  if endsWithDotZero a
  then parseRational u256 (substring 0 (String.length a - 2) a)
  else u256 a.
Proof.
  rewrite <- (parseRational_fuel_enough (S (String.length a)) a) by lia.
  simpl. destruct (endsWithDotZero a) eqn:He; [|reflexivity].
  apply endsWithDotZero_length in He.
  apply parseRational_fuel_enough. rewrite length_substring; lia.
Qed.

Lemma endsWithDotZero_append s : s <> "" -> endsWithDotZero (s +:+ ".0") = true.
Proof.
  intros Hs. unfold endsWithDotZero.
  assert (1 <= String.length s) by (destruct s; [contradiction | simpl; lia]).
  rewrite length_append. simpl String.length.
  replace (String.length s + 2 - 1) with (String.length s + 1) by lia.
  replace (String.length s + 2 - 2) with (String.length s + 0) by lia.
  rewrite !get_append_r. simpl String.get.
  rewrite !bool_decide_eq_true_2 by reflexivity. rewrite !andb_true_r.
  apply Nat.leb_le. lia.
Qed.

Lemma endsWithDotZero_inv a :
  endsWithDotZero a = true -> exists s, s <> "" /\ a = s +:+ ".0".
Proof.
  intros He. pose proof (endsWithDotZero_length _ He) as Hlen.
  unfold endsWithDotZero in He.
  rewrite !andb_true_iff, !bool_decide_eq_true in He. destruct He as [[_ H0] Hd].
  exists (substring 0 (String.length a - 2) a). split.
  - intros Heq. apply (f_equal String.length) in Heq.
    rewrite length_substring in Heq by lia. simpl in Heq. lia.
  - apply split_last_two; auto. lia.
Qed.

(** Stripping: an atom [s.0] reads as [s]. *)
Lemma parseRational_strip s :
  s <> "" -> parseRational u256 (s +:+ ".0") = parseRational u256 s.
Proof.
  intros Hs. rewrite parseRational_equation, endsWithDotZero_append by assumption.
  rewrite length_append. simpl String.length.
  replace (String.length s + 2 - 2) with (String.length s) by lia.
  now rewrite substring_append_l.
Qed.

Lemma numeric_atom_equation front tail E :
  isDigit front || ascii_eqb front "." = true ->
  toSMTUtilExpression u256 str (Atom (String front tail)) E =
    match parseRational u256 (String front tail) with
    | Some n => Ok (mkExpression (str n) [] realSort)
    | None => Throw runtime_error
    end.
Proof. intros Hnum. simpl. now rewrite Hnum. Qed.

(** C3. An atom whose first character is a digit or a dot elaborates, in
    any environment, to the literal of sort Real named by the number that
    [parseRational] reads, and throws when the integer constructor rejects
    what it is handed; an atom [s.0] with something in front of the
    suffix reads as [s] does, again and again, an atom with no such suffix
    is handed to the integer constructor as it is; so [1.0] and [1]
    elaborate to the same literal. *)
Theorem numeric_atom_literal (front : ascii) (tail : string) (E : SortEnv) :
  isDigit front || ascii_eqb front "." = true ->
  let a := String front tail in
  toSMTUtilExpression u256 str (Atom a) E =
    match parseRational u256 a with
    | Some n => Ok (mkExpression (str n) [] realSort)
    | None => Throw runtime_error
    end
  /\ (forall s, s <> "" -> a = s +:+ ".0" -> parseRational u256 a = parseRational u256 s)
  /\ ((forall s, s <> "" -> a <> s +:+ ".0") -> parseRational u256 a = u256 a)
  /\ toSMTUtilExpression u256 str (Atom "1.0") E
     = toSMTUtilExpression u256 str (Atom "1") E.
Proof.
  intros Hnum a. split; [|split; [|split]].
  - now apply numeric_atom_equation.
  - intros s Hs ->. now apply parseRational_strip.
  - intros Hno. rewrite parseRational_equation.
    destruct (endsWithDotZero a) eqn:He; [|reflexivity].
    apply endsWithDotZero_inv in He. destruct He as (s & Hs & Heq).
    now destruct (Hno s Hs).
  - rewrite !numeric_atom_equation by reflexivity.
    pose proof (parseRational_strip "1" ltac:(discriminate)) as H.
    change ("1" +:+ ".0") with "1.0" in H. now rewrite H.
Qed.

End NumericAtoms.

(** The atom [10.0.0] in the environment without variables. *)
Lemma numeric_atom_literal_witness :
  toSMTUtilExpression u256_decimal str_decimal (Atom "10.0.0") ∅
  = Ok (mkExpression "10" [] realSort).
Proof.
  destruct (numeric_atom_literal u256_decimal str_decimal "1" "0.0.0" ∅) as [H _];
    [reflexivity|].
  rewrite H. reflexivity.
Defined.

(** C3, where it fails: the atoms [1.5], [.5] and [.0] start with a digit
    or a dot and yield no literal, the integer constructor rejects them
    ([.0] is too short for the suffix to be taken off); and the suffix is
    taken off more than once: [1.0.0] yields the literal 1, where [1.0],
    what is left after one suffix, is no integer. *)
Lemma numeric_atom_without_literal :
  toSMTUtilExpression u256_decimal str_decimal (Atom "1.5") ∅ = Throw runtime_error
  /\ toSMTUtilExpression u256_decimal str_decimal (Atom ".5") ∅ = Throw runtime_error
  /\ toSMTUtilExpression u256_decimal str_decimal (Atom ".0") ∅ = Throw runtime_error
  /\ toSMTUtilExpression u256_decimal str_decimal (Atom "1.0.0") ∅
     = Ok (mkExpression "1" [] realSort)
  /\ u256_decimal "1.0" = None.
Proof. repeat split; reflexivity. Qed.

(** ** Applications, [let] and empty sequences *)

Section ElaboratorProperties.

Variable u256 : string -> option N.
Variable str : N -> string.

Abbreviation elab := (toSMTUtilExpression u256 str).

Lemma back_sort_Ok arguments s :
  back_sort arguments = Ok s <-> exists l, last arguments = Some l /\ s = sort l.
Proof.
  unfold back_sort. destruct (last arguments) as [l|].
  - split.
    + intros [= <-]. eauto.
    + intros (l' & [= <-] & ->). reflexivity.
  - split; [discriminate | intros (l' & [=] & _)].
Qed.

(** C2. A list headed by an operator other than [let] elaborates to an
    expression exactly when every remaining element elaborates against
    the same environment; the arguments are the results in order, and the
    sort is Boolean for the nine relational and logical operators and the
    sort of the last argument for any other operator. *)
Theorem application_sort_rule (op : string) (rest : list SMTLib2Expression)
    (E : SortEnv) (e : Expression) :
  op <> "let" ->
  toSMTUtilExpression u256 str (List (Atom op :: rest)) E = Ok e <->
  exists arguments,
    Forall2 (fun n a => toSMTUtilExpression u256 str n E = Ok a) rest arguments /\
    ((In op ["and"; "or"; "not"; "="; "<"; ">"; "<="; ">="; "=>"] /\
      e = mkExpression op arguments boolSort) \/
     (~ In op ["and"; "or"; "not"; "="; "<"; ">"; "<="; ">="; "=>"] /\
      exists l, last arguments = Some l /\
                e = mkExpression op arguments (sort l))).
Proof.
  intros Hop. rewrite application_equation by assumption.
  pose proof (contains_boolOperators op) as Hb.
  split.
  - destruct (elaborateAll u256 str rest E) as [arguments| |] eqn:Hall;
      simpl; try discriminate.
    apply elaborateAll_Ok in Hall. intros H. exists arguments. split; [exact Hall|].
    destruct (contains boolOperators op).
    + left. simpl in H. injection H as <-. split; [now apply Hb | reflexivity].
    + right. split; [intros Hin; apply Hb in Hin; discriminate|].
      destruct (back_sort arguments) as [s| |] eqn:Hs; simpl in H; try discriminate.
      injection H as <-. apply back_sort_Ok in Hs. destruct Hs as (l & Hl & ->).
      eauto.
  - intros (arguments & Hall & Hcase). apply elaborateAll_Ok in Hall.
    rewrite Hall. simpl.
    destruct Hcase as [[Hin ->]|[Hnin (l & Hl & ->)]].
    + apply Hb in Hin. now rewrite Hin.
    + destruct (contains boolOperators op) eqn:Hc.
      * destruct Hnin. now apply Hb.
      * unfold back_sort. now rewrite Hl.
Qed.

(** C1. A [let] form elaborates the values of all its bindings against
    the environment it was given, left to right, and only the body against
    that environment extended with every bound name at the sort of its
    value; so [(let ((x 1) (y x)) y)] throws where [x] is not in the
    environment. *)
Theorem let_values_in_given_environment
    (xvs : list (string * SMTLib2Expression)) (body : SMTLib2Expression)
    (E : SortEnv) :
  toSMTUtilExpression u256 str (List [Atom "let"; List (map mkBinding xvs); body]) E =
    (let* vals := elaborateAll u256 str (map snd xvs) E in
     let* b := toSMTUtilExpression u256 str body (extend E (zip (map fst xvs) (map sort vals))) in
     Ok (mkExpression "let" (zip_with bindingNode (map fst xvs) vals ++ [b]) (sort b)))
  /\ (E !! "x" = None -> MalformedExpression (toSMTUtilExpression u256 str siblingLet E)).
Proof.
  split; [apply let_equation|].
  intros Hx. unfold MalformedExpression.
  change siblingLet with
    (List [Atom "let"; List (map mkBinding [("x", Atom "1"); ("y", Atom "x")]); Atom "y"]).
  rewrite let_equation.
  cbn [map snd elaborateAll].
  destruct (elab (Atom "1") E) as [a| |] eqn:H1.
  - cbn [bind]. simpl (elab (Atom "x") E). rewrite Hx. eauto.
  - eauto.
  - simpl in H1. destruct (parseRational u256 "1"); discriminate.
Qed.

End ElaboratorProperties.

Lemma application_sort_rule_witness :
  toSMTUtilExpression u256_decimal str_decimal
    (List [Atom "+"; Atom "b"; Atom "2.0"]) {[ "b" := boolSort ]}
  = Ok (mkExpression "+" [mkExpression "b" [] boolSort; mkExpression "2" [] realSort]
          realSort).
Proof.
  apply (application_sort_rule u256_decimal str_decimal "+"); [discriminate|].
  exists [mkExpression "b" [] boolSort; mkExpression "2" [] realSort].
  split.
  - repeat constructor.
  - right. split.
    + simpl. intros H. repeat destruct H as [H|H]; try discriminate; exact H.
    + exists (mkExpression "2" [] realSort). split; reflexivity.
Defined.

Lemma let_values_in_given_environment_witness :
  MalformedExpression (toSMTUtilExpression u256_decimal str_decimal siblingLet ∅).
Proof.
  apply (let_values_in_given_environment u256_decimal str_decimal [] (Atom "y") ∅).
  reflexivity.
Defined.

(** ** The command loop: [declare-fun], [exit], end of input *)

Section MainProperties.

Variable u256 : string -> option N.
Variable str : N -> string.
Variable checkResult : list SolverCall -> CheckResult.

(** [command] returns the head atom of a non-empty list and nothing else. *)
Lemma command_Ok expr cmd :
  command expr = Ok cmd <-> exists rest, expr = List (Atom cmd :: rest).
Proof.
  split.
  - destruct expr as [sv|[|[front|l] rest]]; simpl; try discriminate.
    intros [= <-]. eauto.
  - intros [rest ->]. reflexivity.
Qed.

Lemma declare_fun_cases rest st :
  (exists name ty s,
      rest = [Atom name; List []; Atom ty] /\
      (ty = "Real" /\ s = realSort \/ ty = "Bool" /\ s = boolSort) /\
      loopBody u256 str checkResult (List (Atom "declare-fun" :: rest)) st = Ok (Continue, declared name s st))
  \/ ((forall name ty, rest = [Atom name; List []; Atom ty] -> ty <> "Real" /\ ty <> "Bool") /\
      exists e, loopBody u256 str checkResult (List (Atom "declare-fun" :: rest)) st = Throw e).
Proof.
  destruct rest as [|i1 [|i2 [|i3 [|i4 rest]]]];
    try (right; split; [discriminate | eexists; reflexivity]).
  destruct i1 as [name|l1];
    [|right; split; [discriminate | eexists; reflexivity]].
  destruct i2 as [a2|[|x args]];
    try (right; split; [discriminate | eexists; reflexivity]).
  destruct i3 as [ty|l3];
    [|right; split; [discriminate | eexists; reflexivity]].
  destruct (String.eqb ty "Real") eqn:HR; [|destruct (String.eqb ty "Bool") eqn:HB].
  - left. exists name, ty, realSort. apply String.eqb_eq in HR.
    split; [reflexivity|]. split; [now left|]. subst ty. reflexivity.
  - left. exists name, ty, boolSort. apply String.eqb_eq in HB.
    split; [reflexivity|]. split; [now right|]. subst ty. reflexivity.
  - right. apply String.eqb_neq in HR, HB. split.
    + intros name' ty' [= _ <-]. now split.
    + exists InternalCompilerError. unfold loopBody. simpl.
      rewrite (proj2 (String.eqb_neq _ _) HR), (proj2 (String.eqb_neq _ _) HB).
      reflexivity.
Qed.

(** C7. For a form headed by [declare-fun]: if the iteration goes through,
    the form has four elements, the third the empty list and the fourth
    the atom [Real] or [Bool], the name is bound to that sort in the
    environment and [declareVariable] is the one call added; a form of that
    shape whose second element is an atom does go through; and a form
    that is not of that shape ends the run with an exception. *)
Theorem declare_fun_dispatch (items : list SMTLib2Expression) (st : State) :
  command (List items) = Ok "declare-fun" ->
  (forall c st',
      loopBody u256 str checkResult (List items) st = Ok (c, st') ->
      declareFunShape items /\
      exists name s,
        items !! 1 = Some (Atom name) /\
        (s = realSort /\ items !! 3 = Some (Atom "Real") \/
         s = boolSort /\ items !! 3 = Some (Atom "Bool")) /\
        c = Continue /\
        variableSorts st' = <[name := s]> (variableSorts st) /\
        solver st' = solver st ++ [declareVariable name s] /\
        cout st' = cout st)
  /\ (forall name, declareFunShape items -> items !! 1 = Some (Atom name) ->
       exists st', loopBody u256 str checkResult (List items) st = Ok (Continue, st'))
  /\ (~ declareFunShape items ->
       exists e, loopBody u256 str checkResult (List items) st = Throw e).
Proof.
  intros Hcmd. apply command_Ok in Hcmd. destruct Hcmd as [rest [= ->]].
  destruct (declare_fun_cases rest st)
    as [(name & ty & s & -> & Hty & Hrun)|[Hno [e He]]].
  - split; [|split].
    + intros c st' H. rewrite Hrun in H. injection H as <- <-.
      split.
      * split; [reflexivity|]. split; [reflexivity|].
        destruct Hty as [[-> _]|[-> _]]; [now left | now right].
      * exists name, s. split; [reflexivity|]. split.
        { destruct Hty as [[-> ->]|[-> ->]]; [now left | now right]. }
        repeat split.
    + intros name' _ _. eauto.
    + intros Hshape. destruct Hshape. split; [reflexivity|]. split; [reflexivity|].
      destruct Hty as [[-> _]|[-> _]]; [now left | now right].
  - split; [|split].
    + intros c st' H. rewrite He in H. discriminate.
    + intros name (Hlen & H2 & H3) H1. exfalso.
      destruct rest as [|i1 [|i2 [|i3 [|i4 rest]]]]; simpl in Hlen; try lia.
      simpl in H1, H2, H3. injection H1 as ->. injection H2 as ->.
      destruct H3 as [[= ->]|[= ->]].
      * destruct (Hno name "Real" eq_refl) as [H _]. now apply H.
      * destruct (Hno name "Bool" eq_refl) as [_ H]. now apply H.
    + intros _. eauto.
Qed.

(** Which forms leave the sort environment of [main] as it is. *)
Lemma loopBody_variableSorts expr st c st' :
  loopBody u256 str checkResult expr st = Ok (c, st') ->
  variableSorts st' = variableSorts st \/
  exists rest, expr = List (Atom "declare-fun" :: rest).
Proof.
  intros H.
  destruct (command expr) as [cmd| |] eqn:Hcmd.
  - apply command_Ok in Hcmd. destruct Hcmd as [rest ->].
    destruct (String.eqb cmd "declare-fun") eqn:Hd.
    { apply String.eqb_eq in Hd. subst cmd. right. eauto. }
    left. unfold loopBody in H. simpl in H. rewrite Hd in H.
    destruct (String.eqb cmd "set-info"); [now injection H as <- <-|].
    destruct (String.eqb cmd "define-fun"); [now injection H as <- <-|].
    destruct (String.eqb cmd "assert").
    { destruct rest as [|i1 [|i2 rest]]; try discriminate. simpl in H.
      destruct (toSMTUtilExpression u256 str i1 (variableSorts st));
        try discriminate.
      simpl in H. now injection H as <- <-. }
    destruct (String.eqb cmd "set-logic"); [now injection H as <- <-|].
    destruct (String.eqb cmd "check-sat"); [now injection H as <- <-|].
    destruct (String.eqb cmd "exit"); [now injection H as <- <-|].
    discriminate.
  - unfold loopBody in H. destruct expr as [sv|items]; [discriminate|].
    cbn [get_vector bind] in H. rewrite Hcmd in H. discriminate.
  - unfold loopBody in H. destruct expr as [sv|items]; [discriminate|].
    cbn [get_vector bind] in H. rewrite Hcmd in H. discriminate.
Qed.

(** C8. When the form parsed at the head of the remaining input is headed
    by [exit], the loop returns 0 at once, whatever follows the form: the
    state, and with it the sequence of solver calls and the printed lines,
    is the one the iteration started with. *)
Theorem exit_stops_the_run (fuel : nat) (inputToParse : string) (st : State)
    (expr : SMTLib2Expression) (m_pos : nat) :
  inputToParse <> "" ->
  SMTLib2Parser.parseExpression inputToParse 0 = Some (expr, m_pos) ->
  command expr = Ok "exit" ->
  mainLoop u256 str checkResult (S fuel) inputToParse st = Some (Ok (0%Z, st)).
Proof.
  intros Hne Hparse Hcmd.
  destruct inputToParse as [|c rest]; [contradiction|].
  cbn [mainLoop]. rewrite Hparse.
  apply command_Ok in Hcmd. destruct Hcmd as [items ->]. reflexivity.
Qed.

(** The text after an [(exit)] at the start of the file plays no role. *)
Lemma exit_ignores_rest rest :
  run u256 str checkResult ("(exit)" +:+ rest) = Some (Ok (0%Z, initialState)).
Proof.
  unfold run.
  change (removeComments ("(exit)" +:+ rest)) with ("(exit)" +:+ removeComments rest).
  change ("(exit)" +:+ removeComments rest)
    with (String "(" (String "e" (String "x" (String "i" (String "t" (String ")"
            (removeComments rest))))))).
  set (input := String "(" _).
  assert (Hparse : SMTLib2Parser.parseExpression input 0 = Some (List [Atom "exit"], 6))
    by (vm_compute; reflexivity).
  unfold input at 2. cbn [mainLoop]. fold input. rewrite Hparse. reflexivity.
Qed.

(** C4. A script of well-formed commands without [exit] that ends with a
    line feed does not end with code 0: the loop parses the line feed as
    an empty atom and [get<vector>] throws on it.  Without the line feed
    the same script returns 0. *)
Theorem trailing_whitespace_aborts :
  run u256 str checkResult ("(set-logic QF_LRA)(check-sat)" +:+ newline)
  = Some (Throw bad_variant_access)
  /\ exists st, run u256 str checkResult "(set-logic QF_LRA)(check-sat)"
                = Some (Ok (0%Z, st)).
Proof.
  split.
  - vm_compute. reflexivity.
  - eexists. vm_compute. reflexivity.
Qed.

(** C10. The elaborator takes [front] of the empty list [()] and [back]
    of the empty argument vector of [(f)]: both runs are undefined, where
    a result or an exception was expected; [main] reaches both through
    [assert]. *)
Theorem empty_sequences_undefined (E : SortEnv) :
  toSMTUtilExpression u256 str (List []) E = Undefined
  /\ toSMTUtilExpression u256 str (List [Atom "f"]) E = Undefined
  /\ run u256 str checkResult "(assert ())" = Some Undefined
  /\ run u256 str checkResult "(assert (f))" = Some Undefined.
Proof.
  split; [reflexivity|]. split; [reflexivity|].
  split; vm_compute; reflexivity.
Qed.

End MainProperties.

Lemma exit_stops_the_run_witness :
  mainLoop u256_decimal str_decimal unknownVerdict 1 "(exit) (check-sat)" initialState
  = Some (Ok (0%Z, initialState)).
Proof.
  apply (exit_stops_the_run u256_decimal str_decimal unknownVerdict 0
           "(exit) (check-sat)" initialState (List [Atom "exit"]) 6).
  - discriminate.
  - reflexivity.
  - reflexivity.
Defined.

Lemma declare_fun_dispatch_witness :
  exists st', loopBody u256_decimal str_decimal unknownVerdict
                (List [Atom "declare-fun"; Atom "x"; List []; Atom "Real"]) initialState
              = Ok (Continue, st').
Proof.
  apply (declare_fun_dispatch u256_decimal str_decimal unknownVerdict
           [Atom "declare-fun"; Atom "x"; List []; Atom "Real"] initialState
           eq_refl) with (name := "x").
  - split; [reflexivity|]. split; [reflexivity|]. now left.
  - reflexivity.
Defined.

(** ** The reader: positions, progress and termination *)

Section ParserFacts.

Variable data : string.

Abbreviation size := (SMTLib2Parser.size data).
Abbreviation token := (SMTLib2Parser.token data).
Abbreviation skipWhitespace := (SMTLib2Parser.skipWhitespace data).
Abbreviation skipWhitespace_loop := (SMTLib2Parser.skipWhitespace_loop data).
Abbreviation parseToken_loop := (SMTLib2Parser.parseToken_loop data).
Abbreviation parseToken := (SMTLib2Parser.parseToken data).
Abbreviation parseExpression_fuel := (SMTLib2Parser.parseExpression_fuel data).
Abbreviation parseSubExpressions := (SMTLib2Parser.parseSubExpressions data).
Abbreviation parseExpression := (SMTLib2Parser.parseExpression data).
Abbreviation remainingInput := (SMTLib2Parser.remainingInput data).
Abbreviation moreSubExpressions := (SMTLib2Parser.moreSubExpressions data).
Abbreviation noNUL := (SMTLib2Parser.noNUL data).

Lemma token_past_end pos : size <= pos -> token pos = NUL.
Proof.
  intros H. unfold SMTLib2Parser.token. now rewrite get_ge.
Qed.

Lemma token_not_NUL_lt pos : token pos <> NUL -> pos < size.
Proof.
  intros H. destruct (Nat.lt_ge_cases pos size) as [Hlt|Hge]; [exact Hlt|].
  now rewrite token_past_end in H.
Qed.

Lemma skipWhitespace_loop_bounds n pos :
  pos <= skipWhitespace_loop n pos <= pos + n.
Proof.
  revert pos. induction n as [|n IH]; intros pos; simpl; [lia|].
  destruct (isWhiteSpace (token pos)); [|lia].
  specialize (IH (SMTLib2Parser.advance pos)). unfold SMTLib2Parser.advance in *. lia.
Qed.

Lemma skipWhitespace_bounds pos :
  pos <= size -> pos <= skipWhitespace pos <= size.
Proof.
  intros H. unfold SMTLib2Parser.skipWhitespace.
  pose proof (skipWhitespace_loop_bounds (size - pos) pos). lia.
Qed.

(** After the loop the current character is no white space. *)
Lemma skipWhitespace_loop_stops n pos :
  size <= pos + n -> isWhiteSpace (token (skipWhitespace_loop n pos)) = false.
Proof.
  revert pos. induction n as [|n IH]; intros pos H; simpl.
  - rewrite token_past_end by lia. reflexivity.
  - destruct (isWhiteSpace (token pos)) eqn:Hw; [|exact Hw].
    apply IH. unfold SMTLib2Parser.advance. lia.
Qed.

Lemma skipWhitespace_stops pos : isWhiteSpace (token (skipWhitespace pos)) = false.
Proof. apply skipWhitespace_loop_stops. lia. Qed.

Lemma skipWhitespace_loop_id n pos :
  isWhiteSpace (token pos) = false -> skipWhitespace_loop n pos = pos.
Proof. intros H. destruct n; simpl; [reflexivity | now rewrite H]. Qed.

Lemma skipWhitespace_id pos :
  isWhiteSpace (token pos) = false -> skipWhitespace pos = pos.
Proof. apply skipWhitespace_loop_id. Qed.

Lemma skipWhitespace_idempotent pos :
  skipWhitespace (skipWhitespace pos) = skipWhitespace pos.
Proof. apply skipWhitespace_id, skipWhitespace_stops. Qed.

Lemma parseToken_loop_bounds n start isPipe pos :
  pos <= size -> pos <= parseToken_loop n start isPipe pos <= size.
Proof.
  revert pos. induction n as [|n IH]; intros pos H; simpl; [lia|].
  destruct (pos <? size)%nat eqn:Hlt; [|lia].
  apply Nat.ltb_lt in Hlt. unfold SMTLib2Parser.advance.
  destruct (isPipe && ((start <? pos)%nat && ascii_eqb (token pos) "|")); [lia|].
  destruct (negb isPipe && _); [lia|].
  specialize (IH (S pos)). lia.
Qed.

Lemma parseToken_bounds pos :
  pos <= size -> pos <= (parseToken pos).2 <= size.
Proof.
  intros H. unfold SMTLib2Parser.parseToken. simpl.
  pose proof (skipWhitespace_bounds pos H).
  pose proof (parseToken_loop_bounds (size - skipWhitespace pos) (skipWhitespace pos)
                (ascii_eqb (token (skipWhitespace pos)) "|") (skipWhitespace pos)).
  lia.
Qed.

(** An atom that starts at a character that is neither white space nor a
    parenthesis has at least that character. *)
Lemma parseToken_progress pos :
  pos < size ->
  isWhiteSpace (token pos) = false ->
  ascii_eqb (token pos) "(" = false ->
  ascii_eqb (token pos) ")" = false ->
  pos < (parseToken pos).2.
Proof.
  intros Hlt Hw Hl Hr. unfold SMTLib2Parser.parseToken. simpl.
  rewrite (skipWhitespace_id pos Hw).
  destruct (size - pos) as [|n] eqn:Hn; [lia|]. simpl.
  apply Nat.ltb_lt in Hlt. rewrite Hlt. rewrite Nat.ltb_irrefl. simpl.
  rewrite andb_false_r, Hw, Hl, Hr. simpl. rewrite andb_false_r.
  unfold SMTLib2Parser.advance.
  apply Nat.ltb_lt in Hlt.
  pose proof (parseToken_loop_bounds n pos (ascii_eqb (token pos) "|") (S pos)). lia.
Qed.

Lemma skipWhitespace_progress pos :
  isWhiteSpace (token pos) = true -> pos < skipWhitespace pos.
Proof.
  intros Hw.
  assert (Hlt : pos < size).
  { apply token_not_NUL_lt. intros HN. rewrite HN in Hw. discriminate. }
  unfold SMTLib2Parser.skipWhitespace.
  destruct (size - pos) as [|n] eqn:Hn; [lia|]. simpl. rewrite Hw.
  pose proof (skipWhitespace_loop_bounds n (SMTLib2Parser.advance pos)).
  unfold SMTLib2Parser.advance in *. lia.
Qed.

Lemma token_eqb_lt pos c :
  c <> NUL -> ascii_eqb (token pos) c = true -> pos < size.
Proof.
  intros Hc H. apply Ascii.eqb_eq in H. apply token_not_NUL_lt. congruence.
Qed.

Lemma moreSubExpressions_lt pos : moreSubExpressions pos = true -> pos < size.
Proof.
  unfold SMTLib2Parser.moreSubExpressions. rewrite andb_true_iff, !negb_true_iff.
  intros [H _]. apply token_not_NUL_lt. intros HN. rewrite HN in H. discriminate.
Qed.

(** With fuel for every character left, both functions return, inside the
    text, and an expression parsed at a character that opens, continues or
    starts something consumes at least that character. *)
Lemma parse_terminates fuel :
  (forall pos, pos <= size -> 1 <= fuel -> 2 * (size - pos) <= fuel ->
     exists e pos',
       parseExpression_fuel fuel pos = Some (e, pos') /\
       pos <= pos' <= size /\
       (moreSubExpressions pos = true -> pos < pos'))
  /\ (forall pos, pos <= size -> 2 * (size - pos) + 1 <= fuel ->
     exists subs pos',
       parseSubExpressions fuel pos = Some (subs, pos') /\
       pos <= pos' <= size /\
       moreSubExpressions pos' = false).
Proof.
  induction fuel as [|fuel [IHE IHS]]; [split; intros; lia|].
  split.
  - intros pos Hpos _ Hfuel. cbn [SMTLib2Parser.parseExpression_fuel].
    pose proof (skipWhitespace_bounds pos Hpos) as Hp1.
    destruct (ascii_eqb (token (skipWhitespace pos)) "(") eqn:Hopen.
    + assert (Hlt : skipWhitespace pos < size)
        by (eapply token_eqb_lt; [|exact Hopen]; discriminate).
      destruct (IHS (SMTLib2Parser.advance (skipWhitespace pos)))
        as (subs & pos2 & -> & Hb & Hstop);
        [unfold SMTLib2Parser.advance; lia .. |].
      unfold SMTLib2Parser.advance in *.
      eexists _, _. split; [reflexivity|]. split; [|intros _].
      * destruct (ascii_eqb (token pos2) ")") eqn:Hclose; [|lia].
        assert (pos2 < size) by (eapply token_eqb_lt; [|exact Hclose]; discriminate).
        lia.
      * destruct (ascii_eqb (token pos2) ")"); lia.
    + destruct (parseToken (skipWhitespace pos)) as [sv pos2] eqn:Htok.
      pose proof (parseToken_bounds (skipWhitespace pos) (proj2 Hp1)) as Hb.
      rewrite Htok in Hb. simpl in Hb.
      eexists _, _. split; [reflexivity|]. split; [lia|].
      intros Hmore.
      destruct (isWhiteSpace (token pos)) eqn:Hw.
      * pose proof (skipWhitespace_progress pos Hw). lia.
      * rewrite (skipWhitespace_id pos Hw) in *.
        pose proof (moreSubExpressions_lt pos Hmore) as Hlt.
        unfold SMTLib2Parser.moreSubExpressions in Hmore.
        rewrite andb_true_iff, !negb_true_iff in Hmore. destruct Hmore as [_ Hr].
        pose proof (parseToken_progress pos Hlt Hw Hopen Hr) as Hprog.
        rewrite Htok in Hprog. exact Hprog.
  - intros pos Hpos Hfuel. cbn [SMTLib2Parser.parseSubExpressions].
    destruct (moreSubExpressions pos) eqn:Hmore.
    + pose proof (moreSubExpressions_lt pos Hmore) as Hlt.
      destruct (IHE pos Hpos) as (e & pos1 & -> & Hb1 & Hprog); [lia..|].
      specialize (Hprog Hmore).
      pose proof (skipWhitespace_bounds pos1 (proj2 Hb1)) as Hb2.
      destruct (IHS (skipWhitespace pos1)) as (subs & pos2 & -> & Hb3 & Hstop); [lia..|].
      eexists _, _. split; [reflexivity|]. split; [lia | exact Hstop].
    + eexists _, _. split; [reflexivity|]. split; [lia | exact Hmore].
Qed.

(** Results do not depend on the fuel once there is enough of it. *)
Lemma parse_fuel_monotone fuel :
  (forall pos r, parseExpression_fuel fuel pos = Some r ->
                 forall fuel', fuel <= fuel' -> parseExpression_fuel fuel' pos = Some r)
  /\ (forall pos r, parseSubExpressions fuel pos = Some r ->
                    forall fuel', fuel <= fuel' -> parseSubExpressions fuel' pos = Some r).
Proof.
  induction fuel as [|fuel [IHE IHS]]; [split; discriminate|].
  split.
  - intros pos r H [|fuel'] Hle; [lia|].
    cbn [SMTLib2Parser.parseExpression_fuel] in *.
    destruct (ascii_eqb (token (skipWhitespace pos)) "("); [|exact H].
    destruct (parseSubExpressions fuel _) as [[subs pos2]|] eqn:Hs; [|discriminate].
    rewrite (IHS _ _ Hs fuel') by lia. exact H.
  - intros pos r H [|fuel'] Hle; [lia|].
    cbn [SMTLib2Parser.parseSubExpressions] in *.
    destruct (moreSubExpressions pos); [|exact H].
    destruct (parseExpression_fuel fuel pos) as [[e pos1]|] eqn:He; [|discriminate].
    rewrite (IHE _ _ He fuel') by lia.
    destruct (parseSubExpressions fuel _) as [[subs pos2]|] eqn:Hs; [|discriminate].
    rewrite (IHS _ _ Hs fuel') by lia. exact H.
Qed.

(** [parseExpression] always returns. *)
Lemma parseExpression_total pos :
  pos <= size ->
  exists e pos', parseExpression pos = Some (e, pos') /\ pos <= pos' <= size.
Proof.
  intros Hpos. unfold SMTLib2Parser.parseExpression, SMTLib2Parser.parseFuel.
  destruct (proj1 (parse_terminates (2 * (size - pos) + 2)) pos Hpos)
    as (e & pos' & H & Hb & _); [lia..|].
  eauto.
Qed.

Lemma moreSubExpressions_false pos :
  moreSubExpressions pos = false -> token pos = NUL \/ token pos = ")"%char.
Proof.
  unfold SMTLib2Parser.moreSubExpressions.
  rewrite andb_false_iff, !negb_false_iff, !Ascii.eqb_eq. tauto.
Qed.

Lemma remainingInput_end : remainingInput size = "".
Proof.
  unfold SMTLib2Parser.remainingInput. apply chars_inj.
  rewrite chars_substring, Nat.sub_diag. reflexivity.
Qed.

Lemma token_NUL_end pos : noNUL -> token pos = NUL -> size <= pos.
Proof.
  intros Hno H. destruct (Nat.lt_ge_cases pos size) as [Hlt|Hge]; [|exact Hge].
  destruct (get_lt data pos Hlt) as [c Hc].
  unfold SMTLib2Parser.token in H. rewrite Hc in H. subst c. now destruct (Hno pos).
Qed.

(** Whatever the fuel, a result lies between the start and the end. *)
Lemma parseExpression_fuel_bounds fuel pos e pos' :
  pos <= size -> parseExpression_fuel fuel pos = Some (e, pos') -> pos <= pos' <= size.
Proof.
  intros Hpos H.
  destruct (proj1 (parse_terminates (fuel + (2 * (size - pos) + 2))) pos Hpos)
    as (e' & q & H' & Hb & _); [lia..|].
  rewrite (proj1 (parse_fuel_monotone fuel) pos _ H) in H' by lia.
  injection H' as <- <-. exact Hb.
Qed.

(** A result with any fuel is the result of [parseExpression]. *)
Lemma parseExpression_fuel_agrees fuel pos r :
  pos <= size -> parseExpression_fuel fuel pos = Some r -> parseExpression pos = Some r.
Proof.
  intros Hpos H.
  destruct (parseExpression_total pos Hpos) as (e & q & H' & _).
  rewrite H'. unfold SMTLib2Parser.parseExpression in H'.
  pose proof (proj1 (parse_fuel_monotone _) pos _ H
                (fuel + SMTLib2Parser.parseFuel data pos) ltac:(lia)) as H1.
  pose proof (proj1 (parse_fuel_monotone _) pos _ H'
                (fuel + SMTLib2Parser.parseFuel data pos) ltac:(lia)) as H2.
  congruence.
Qed.

(** The list that the loop returns is the list of the nodes read one
    after the other, none left out. *)
Lemma parseSubExpressions_reads fuel :
  forall pos subs stop,
    pos <= size ->
    parseSubExpressions fuel pos = Some (subs, stop) ->
    readsSubExpressions data pos subs stop.
Proof.
  induction fuel as [|fuel IH]; intros pos subs stop Hpos; [discriminate|].
  cbn [SMTLib2Parser.parseSubExpressions].
  destruct (moreSubExpressions pos) eqn:Hmore.
  - destruct (parseExpression_fuel fuel pos) as [[e p1]|] eqn:He; [|discriminate].
    destruct (parseSubExpressions fuel (skipWhitespace p1)) as [[subs' p2]|] eqn:Hs;
      [|discriminate].
    intros [= <- <-].
    pose proof (parseExpression_fuel_bounds fuel pos e p1 Hpos He) as Hb.
    apply (readsSubExpressions_next data pos e p1); [exact Hmore| |].
    + now apply (parseExpression_fuel_agrees fuel).
    + apply IH; [|exact Hs]. apply skipWhitespace_bounds. lia.
  - intros [= <- <-]. now constructor.
Qed.

End ParserFacts.

(** ** The reader: restarting on the remaining input *)

Lemma chars_remainingInput data k :
  chars (SMTLib2Parser.remainingInput data k) = drop k (chars data).
Proof.
  unfold SMTLib2Parser.remainingInput, SMTLib2Parser.size.
  rewrite chars_substring. apply take_ge.
  rewrite length_drop, chars_length. lia.
Qed.

Lemma remainingInput_remainingInput data k pos :
  SMTLib2Parser.remainingInput (SMTLib2Parser.remainingInput data k) pos
  = SMTLib2Parser.remainingInput data (pos + k).
Proof.
  apply chars_inj. rewrite !chars_remainingInput, drop_drop.
  now rewrite (Nat.add_comm k pos).
Qed.

Lemma remainingInput_0 data : SMTLib2Parser.remainingInput data 0 = data.
Proof. apply chars_inj. now rewrite chars_remainingInput, drop_0. Qed.

(** The text is what was consumed followed by what remains. *)
Lemma consumed_remainingInput data pos :
  data = substring 0 pos data +:+ SMTLib2Parser.remainingInput data pos.
Proof.
  apply chars_inj.
  rewrite chars_append, chars_substring, chars_remainingInput, drop_0.
  now rewrite take_drop.
Qed.

Section Restart.

Variable data : string.
Variable k : nat.

Abbreviation rest := (SMTLib2Parser.remainingInput data k).
Abbreviation moved := (SMTLib2Parser.moved k).

Lemma size_remainingInput : SMTLib2Parser.size rest = SMTLib2Parser.size data - k.
Proof.
  unfold SMTLib2Parser.size at 1 2.
  rewrite <- !chars_length, chars_remainingInput, length_drop. reflexivity.
Qed.

Lemma token_remainingInput pos :
  SMTLib2Parser.token rest pos = SMTLib2Parser.token data (pos + k).
Proof.
  unfold SMTLib2Parser.token.
  rewrite !chars_get, chars_remainingInput, lookup_drop.
  now rewrite (Nat.add_comm k pos).
Qed.

Lemma skipWhitespace_loop_remainingInput n pos :
  SMTLib2Parser.skipWhitespace_loop data n (pos + k)
  = SMTLib2Parser.skipWhitespace_loop rest n pos + k.
Proof.
  revert pos. induction n as [|n IH]; intros pos; simpl; [reflexivity|].
  rewrite token_remainingInput.
  destruct (isWhiteSpace _); [|reflexivity].
  apply (IH (S pos)).
Qed.

Lemma skipWhitespace_remainingInput pos :
  SMTLib2Parser.skipWhitespace data (pos + k)
  = SMTLib2Parser.skipWhitespace rest pos + k.
Proof.
  unfold SMTLib2Parser.skipWhitespace. rewrite size_remainingInput.
  replace (SMTLib2Parser.size data - (pos + k))
    with (SMTLib2Parser.size data - k - pos) by lia.
  apply skipWhitespace_loop_remainingInput.
Qed.

Lemma parseToken_loop_remainingInput n start isPipe pos :
  SMTLib2Parser.parseToken_loop data n (start + k) isPipe (pos + k)
  = SMTLib2Parser.parseToken_loop rest n start isPipe pos + k.
Proof.
  revert pos. induction n as [|n IH]; intros pos; simpl; [reflexivity|].
  rewrite size_remainingInput, token_remainingInput.
  replace (pos + k <? SMTLib2Parser.size data)%nat
    with (pos <? SMTLib2Parser.size data - k)%nat
    by (destruct (Nat.ltb_spec pos (SMTLib2Parser.size data - k));
        destruct (Nat.ltb_spec (pos + k) (SMTLib2Parser.size data)); auto; lia).
  destruct (pos <? _)%nat; [|reflexivity].
  replace (start + k <? pos + k)%nat with (start <? pos)%nat
    by (destruct (Nat.ltb_spec start pos);
        destruct (Nat.ltb_spec (start + k) (pos + k)); auto; lia).
  destruct (isPipe && _); [reflexivity|].
  destruct (negb isPipe && _); [reflexivity|].
  apply (IH (S pos)).
Qed.

Lemma substring_remainingInput start m :
  substring start m rest = substring (start + k) m data.
Proof.
  apply chars_inj.
  rewrite !chars_substring, chars_remainingInput, drop_drop.
  now rewrite (Nat.add_comm k start).
Qed.

Lemma parseToken_remainingInput pos :
  SMTLib2Parser.parseToken data (pos + k)
  = ((SMTLib2Parser.parseToken rest pos).1, (SMTLib2Parser.parseToken rest pos).2 + k).
Proof.
  unfold SMTLib2Parser.parseToken. cbn [fst snd].
  rewrite skipWhitespace_remainingInput, size_remainingInput.
  rewrite <- token_remainingInput.
  replace (SMTLib2Parser.size data - (SMTLib2Parser.skipWhitespace rest pos + k))
    with (SMTLib2Parser.size data - k - SMTLib2Parser.skipWhitespace rest pos) by lia.
  rewrite parseToken_loop_remainingInput, substring_remainingInput.
  f_equal. f_equal. lia.
Qed.

Lemma parse_fuel_remainingInput fuel :
  (forall pos, SMTLib2Parser.parseExpression_fuel data fuel (pos + k)
               = moved (SMTLib2Parser.parseExpression_fuel rest fuel pos))
  /\ (forall pos, SMTLib2Parser.parseSubExpressions data fuel (pos + k)
                  = moved (SMTLib2Parser.parseSubExpressions rest fuel pos)).
Proof.
  induction fuel as [|fuel [IHE IHS]]; [split; reflexivity|].
  split; intros pos.
  - cbn [SMTLib2Parser.parseExpression_fuel].
    rewrite skipWhitespace_remainingInput, <- token_remainingInput.
    destruct (ascii_eqb _ "(").
    + change (SMTLib2Parser.advance (SMTLib2Parser.skipWhitespace rest pos + k))
        with (SMTLib2Parser.advance (SMTLib2Parser.skipWhitespace rest pos) + k).
      rewrite IHS.
      destruct (SMTLib2Parser.parseSubExpressions rest fuel _) as [[subs pos2]|];
        [|reflexivity].
      cbn [SMTLib2Parser.moved]. rewrite <- token_remainingInput.
      destruct (ascii_eqb _ ")"); reflexivity.
    + rewrite parseToken_remainingInput.
      destruct (SMTLib2Parser.parseToken rest _) as [sv pos2]. reflexivity.
  - cbn [SMTLib2Parser.parseSubExpressions].
    unfold SMTLib2Parser.moreSubExpressions. rewrite <- token_remainingInput.
    destruct (negb _ && negb _); [|reflexivity].
    rewrite IHE.
    destruct (SMTLib2Parser.parseExpression_fuel rest fuel pos) as [[e pos1]|];
      [|reflexivity].
    cbn [SMTLib2Parser.moved]. rewrite skipWhitespace_remainingInput, IHS.
    destruct (SMTLib2Parser.parseSubExpressions rest fuel _) as [[subs pos2]|];
      reflexivity.
Qed.

(** A parser on the remaining input does what the parser on the whole
    text does from position [k] on. *)
Lemma parseExpression_remainingInput pos :
  SMTLib2Parser.parseExpression data (pos + k)
  = moved (SMTLib2Parser.parseExpression rest pos).
Proof.
  unfold SMTLib2Parser.parseExpression, SMTLib2Parser.parseFuel.
  rewrite size_remainingInput.
  replace (SMTLib2Parser.size data - (pos + k))
    with (SMTLib2Parser.size data - k - pos) by lia.
  apply parse_fuel_remainingInput.
Qed.

End Restart.

Lemma parseN_reparseN data n k :
  k <= SMTLib2Parser.size data ->
  exists es pos,
    SMTLib2Parser.parseN data n k = Some (es, pos) /\
    k <= pos <= SMTLib2Parser.size data /\
    SMTLib2Parser.reparseN n (SMTLib2Parser.remainingInput data k)
    = Some (es, SMTLib2Parser.remainingInput data pos).
Proof.
  revert k. induction n as [|n IH]; intros k Hk.
  - exists [], k. repeat split; auto.
  - destruct (parseExpression_total data k Hk) as (e & pos1 & Hparse & Hb1).
    destruct (IH pos1) as (es & pos & HN & Hb & HR); [lia|].
    exists (e :: es), pos. cbn [SMTLib2Parser.parseN SMTLib2Parser.reparseN].
    rewrite Hparse, HN. split; [reflexivity|]. split; [lia|].
    pose proof (parseExpression_remainingInput data k 0) as Hshift.
    rewrite Nat.add_0_l, Hparse in Hshift.
    destruct (SMTLib2Parser.parseExpression (SMTLib2Parser.remainingInput data k) 0)
      as [[e' q]|]; [|discriminate].
    cbn [SMTLib2Parser.moved] in Hshift. injection Hshift as <- ->.
    rewrite remainingInput_remainingInput, HR. reflexivity.
Qed.

(** C6. Reading [n] expressions with one parser over the whole text, and
    reading them one at a time, each with a new parser on the input the
    previous one reported as remaining, give the same expressions and end at
    the same place; the position reported splits the text into the part
    consumed and the remaining input. *)
Theorem parsing_is_restartable (data : string) (n : nat) :
  exists es pos,
    SMTLib2Parser.parseN data n 0 = Some (es, pos) /\
    SMTLib2Parser.reparseN n data = Some (es, SMTLib2Parser.remainingInput data pos) /\
    pos <= SMTLib2Parser.size data /\
    data = substring 0 pos data +:+ SMTLib2Parser.remainingInput data pos.
Proof.
  destruct (parseN_reparseN data n 0) as (es & pos & HN & Hb & HR); [lia|].
  rewrite remainingInput_0 in HR.
  exists es, pos. repeat split; auto; [lia | apply consumed_remainingInput].
Qed.

Example restart_two_forms :
  SMTLib2Parser.reparseN 2 "(declare-fun x () Real) (assert x) (exit)"
  = Some ([List [Atom "declare-fun"; Atom "x"; List []; Atom "Real"];
           List [Atom "assert"; Atom "x"]], " (exit)").
Proof. reflexivity. Qed.

Example unterminated_list_parse :
  SMTLib2Parser.parseExpression "(assert (> x 0" 0
  = Some (List [Atom "assert"; List [Atom ">"; Atom "x"; Atom "0"]], 14).
Proof. reflexivity. Qed.

(** ** The elaborator and the maps it is given *)

Lemma descendants_List P l :
  descendants P (List l) <-> Forall (fun x => P x /\ descendants P x) l.
Proof.
  simpl. induction l as [|x l IH]; simpl.
  - split; [constructor | trivial].
  - rewrite Forall_cons, IH. reflexivity.
Qed.

(** Induction over a tree with the hypothesis for every node below. *)
Lemma SMTLib2Expression_descendants_ind (P : SMTLib2Expression -> Prop) :
  (forall e, descendants P e -> P e) -> forall e, P e.
Proof.
  intros H.
  assert (Hall : forall e, descendants P e).
  { fix IH 1. intros [sv|l].
    - exact I.
    - apply descendants_List. induction l as [|x l IHl]; constructor.
      + split; [apply H|]; apply IH.
      + exact IHl. }
  intros e. apply H, Hall.
Qed.

Section StoreFacts.

Variable u256 : string -> option N.
Variable str : N -> string.

Abbreviation elab := (toSMTUtilExpression u256 str).
Abbreviation elabS := (toSMTUtilExpressionS u256 str).
Abbreviation preserves := (preserves u256 str).

Lemma deref_app_l (r : nat) (st : Store) (S : SortEnv) :
  r < length st -> deref r (st ++ [S]) = deref r st.
Proof. intros H. unfold deref. now rewrite lookup_app_l. Qed.

Lemma deref_app_last (st : Store) (S : SortEnv) : deref (length st) (st ++ [S]) = S.
Proof. unfold deref. now rewrite list_lookup_middle. Qed.

Lemma assign_last (st : Store) (S : SortEnv) x s :
  assign (length st) x s (st ++ [S]) = st ++ [<[x := s]> S].
Proof.
  unfold assign. replace (length st) with (length st + 0) by lia.
  now rewrite alter_app_r.
Qed.

Lemma destroy_last (st : Store) (S : SortEnv) : destroy (st ++ [S]) = st.
Proof. apply removelast_last. Qed.

Lemma argumentsLoopS_preserves rest :
  Forall preserves rest ->
  forall acc r (st : Store), r < length st ->
    argumentsLoopS elabS r rest acc st =
    let* args := argumentsLoop elab (deref r st) rest acc in Ok (args, st).
Proof.
  induction 1 as [|e rest He _ IH]; intros acc r st Hr; simpl; [reflexivity|].
  rewrite (He r st Hr).
  destruct (elab e (deref r st)) as [a| |]; simpl; [|reflexivity..].
  now apply IH.
Qed.

Lemma letLoopS_preserves {A : Type} (f : list Expression -> Sort -> A)
    body bindings (r : nat) (st : Store) :
  r < length st ->
  preserves body ->
  Forall (descendants preserves) bindings ->
  forall (S : SortEnv) acc,
    (let* res := letLoopS elabS r body bindings (length st) acc (st ++ [S]) in
     Ok (f res.1.1 res.1.2, destroy res.2)) =
    (let* res := letLoop elab (deref r st) body bindings S acc in
     Ok (f res.1 res.2, st)).
Proof.
  intros Hr Hbody. induction 1 as [|binding bindings Hb _ IH]; intros S acc.
  - cbn [letLoopS letLoop].
    rewrite (Hbody (length st) (st ++ [S])) by (rewrite length_app; simpl; lia).
    rewrite deref_app_last.
    destruct (elab body S) as [b| |]; simpl; [|reflexivity..].
    now rewrite destroy_last.
  - cbn [letLoopS letLoop]. destruct binding as [sv|elements]; [reflexivity|].
    destruct (solAssert (length elements =? 2)%nat); simpl; [|reflexivity..].
    destruct elements as [|e0 [|e1 [|e2 elements]]]; try reflexivity.
    destruct (get_string_view e0) as [varName| |]; simpl; [|reflexivity..].
    apply descendants_List in Hb.
    apply Forall_cons in Hb. destruct Hb as [_ Hb].
    apply Forall_cons in Hb. destruct Hb as [[He1 _] _].
    rewrite (He1 r (st ++ [S])) by (rewrite length_app; simpl; lia).
    rewrite deref_app_l by assumption.
    destruct (elab e1 (deref r st)) as [replacement| |]; simpl; [|reflexivity..].
    rewrite assign_last. apply IH.
Qed.

Lemma toSMTUtilExpressionS_preserves e : preserves e.
Proof.
  induction e as [e IH] using SMTLib2Expression_descendants_ind.
  intros r st Hr. destruct e as [_atom|_subExpr].
  - destruct _atom as [|front tail]; [reflexivity|]. simpl.
    destruct (isDigit front || ascii_eqb front ".").
    + destruct (parseRational u256 (String front tail)); reflexivity.
    + destruct (deref r st !! String front tail); reflexivity.
  - apply descendants_List in IH.
    destruct _subExpr as [|front rest]; [reflexivity|].
    apply Forall_cons in IH. destruct IH as [_ IH].
    cbn [toSMTUtilExpressionS toSMTUtilExpression].
    destruct (get_string_view front) as [op| |]; cbn [bind]; [|reflexivity..].
    destruct (String.eqb op "let").
    + cbn [copy].
      destruct (solAssert (length (front :: rest) =? 3)%nat); cbn [bind];
        [|reflexivity..].
      destruct rest as [|bindings [|body [|x rest]]]; try reflexivity.
      apply Forall_cons in IH. destruct IH as [[_ Hbindings] IH].
      apply Forall_cons in IH. destruct IH as [[Hbody _] _].
      destruct bindings as [sv|bindings]; [reflexivity|].
      apply descendants_List in Hbindings.
      assert (Hbs : Forall (descendants preserves) bindings).
      { eapply Forall_impl; [exact Hbindings|]. now intros x [_ Hx]. }
      pose proof (letLoopS_preserves (mkExpression op) body bindings r st Hr Hbody Hbs
                    (deref r st) []) as Hloop.
      destruct (letLoop elab (deref r st) body bindings (deref r st) [])
        as [[args s]| |];
        destruct (letLoopS elabS r body bindings (length st) [] (st ++ [deref r st]))
          as [[[args' s'] st']| |];
        simpl in Hloop |- *; congruence.
    + assert (Hrest : Forall preserves rest).
      { eapply Forall_impl; [exact IH|]. now intros x [Hx _]. }
      rewrite (argumentsLoopS_preserves rest Hrest [] r st Hr).
      destruct (argumentsLoop elab (deref r st) rest []) as [args| |]; simpl;
        [|reflexivity..].
      destruct (if contains boolOperators op then Ok boolSort else back_sort args);
        reflexivity.
Qed.

Variable checkResult : list SolverCall -> CheckResult.

(** C9. Elaboration leaves the map it is given as it found it: run on a
    store of maps with a valid reference, it returns the result of the
    function on the map referred to together with the store it started
    with, the copy made by a [let] being gone again.  In the loop of
    [main] a form that changes [variableSorts] is headed by
    [declare-fun]. *)
Theorem elaboration_preserves_environment
    (e : SMTLib2Expression) (r : nat) (st : Store)
    (expr : SMTLib2Expression) (s : State) :
  (r < length st ->
   toSMTUtilExpressionS u256 str e r st =
   let* x := toSMTUtilExpression u256 str e (deref r st) in Ok (x, st))
  /\ (forall c s',
        loopBody u256 str checkResult expr s = Ok (c, s') ->
        variableSorts s' = variableSorts s \/
        exists rest, expr = List (Atom "declare-fun" :: rest)).
Proof.
  split.
  - apply toSMTUtilExpressionS_preserves.
  - intros c s'. apply loopBody_variableSorts.
Qed.

End StoreFacts.

Lemma elaboration_preserves_environment_witness :
  toSMTUtilExpressionS u256_decimal str_decimal
    (List [Atom "let"; List [List [Atom "x"; Atom "1"]]; List [Atom "="; Atom "x"; Atom "y"]])
    0 [ {[ "y" := realSort ]} ]
  = Ok (mkExpression "let"
          [mkExpression "x" [mkExpression "1" [] realSort] realSort;
           mkExpression "=" [mkExpression "x" [] realSort; mkExpression "y" [] realSort]
             boolSort]
          boolSort,
        [ {[ "y" := realSort ]} ]).
Proof.
  rewrite (proj1 (elaboration_preserves_environment u256_decimal str_decimal unknownVerdict
                    _ 0 [ {[ "y" := realSort ]} ] (Atom "") initialState));
    [reflexivity | simpl; lia].
Defined.

(** ** The command loop: termination, and white space at the end *)

Section MainLoopFacts.

Variable u256 : string -> option N.
Variable str : N -> string.
Variable checkResult : list SolverCall -> CheckResult.

(** A list is read from an opening parenthesis on, which is consumed. *)
Lemma parseExpression_List_progress data pos l pos' :
  pos <= SMTLib2Parser.size data ->
  SMTLib2Parser.parseExpression data pos = Some (List l, pos') ->
  pos < pos'.
Proof.
  intros Hpos. unfold SMTLib2Parser.parseExpression, SMTLib2Parser.parseFuel.
  replace (2 * (SMTLib2Parser.size data - pos) + 2)
    with (S (2 * (SMTLib2Parser.size data - pos) + 1)) by lia.
  cbn [SMTLib2Parser.parseExpression_fuel].
  pose proof (skipWhitespace_bounds data pos Hpos) as Hp1.
  destruct (ascii_eqb _ "(") eqn:Hopen.
  - assert (Hlt : SMTLib2Parser.skipWhitespace data pos < SMTLib2Parser.size data)
      by (eapply token_eqb_lt; [|exact Hopen]; discriminate).
    destruct (proj2 (parse_terminates data (2 * (SMTLib2Parser.size data - pos) + 1))
                (SMTLib2Parser.advance (SMTLib2Parser.skipWhitespace data pos)))
      as (subs & pos2 & -> & Hb & _);
      [unfold SMTLib2Parser.advance; lia .. |].
    unfold SMTLib2Parser.advance in *. intros [= _ <-].
    destruct (ascii_eqb _ ")"); lia.
  - destruct (SMTLib2Parser.parseToken data _). discriminate.
Qed.

(** The loop of [main] ends: every iteration that goes on has consumed a
    list, hence at least one character. *)
Lemma mainLoop_total fuel inputToParse st :
  String.length inputToParse < fuel ->
  exists r, mainLoop u256 str checkResult fuel inputToParse st = Some r.
Proof.
  revert inputToParse st. induction fuel as [|fuel IH]; intros input st Hlen; [lia|].
  destruct input as [|c input]; [simpl; eauto|].
  cbn [mainLoop].
  destruct (parseExpression_total (String c input) 0) as (e & pos & Hparse & Hb); [lia|].
  rewrite Hparse.
  destruct (loopBody u256 str checkResult e st) as [[[|code] st']| |] eqn:Hbody; eauto.
  apply IH.
  destruct e as [sv|l]; [discriminate|].
  apply parseExpression_List_progress in Hparse; [|lia].
  fold (SMTLib2Parser.size (SMTLib2Parser.remainingInput (String c input) pos)).
  rewrite size_remainingInput. unfold SMTLib2Parser.size in *. simpl in *. lia.
Qed.


Lemma skipWhitespace_loop_allWhiteSpace data n pos :
  allWhiteSpace data ->
  pos + n <= SMTLib2Parser.size data ->
  SMTLib2Parser.skipWhitespace_loop data n pos = pos + n.
Proof.
  intros Hws. revert pos. induction n as [|n IH]; intros pos Hn; simpl; [lia|].
  destruct (get_lt data pos) as [c Hc]; [unfold SMTLib2Parser.size in Hn; lia|].
  unfold SMTLib2Parser.token at 1. rewrite Hc, (Hws pos c Hc).
  unfold SMTLib2Parser.advance. rewrite IH by lia. lia.
Qed.

(** On white space alone the reader returns the empty atom. *)
Lemma parseExpression_allWhiteSpace data :
  allWhiteSpace data ->
  SMTLib2Parser.parseExpression data 0
  = Some (Atom "", SMTLib2Parser.size data).
Proof.
  intros Hws.
  assert (Hskip : SMTLib2Parser.skipWhitespace data 0 = SMTLib2Parser.size data).
  { unfold SMTLib2Parser.skipWhitespace.
    rewrite skipWhitespace_loop_allWhiteSpace by (assumption || lia). lia. }
  assert (Hend : SMTLib2Parser.token data (SMTLib2Parser.size data) = NUL)
    by (apply token_past_end; lia).
  unfold SMTLib2Parser.parseExpression, SMTLib2Parser.parseFuel.
  replace (2 * (SMTLib2Parser.size data - 0) + 2)
    with (S (2 * (SMTLib2Parser.size data - 0) + 1)) by lia.
  cbn [SMTLib2Parser.parseExpression_fuel].
  rewrite Hskip, Hend. cbn [ascii_eqb NUL].
  change (Ascii.eqb zero "(") with false. cbv iota.
  unfold SMTLib2Parser.parseToken.
  rewrite (skipWhitespace_id data (SMTLib2Parser.size data)) by (now rewrite Hend).
  rewrite Nat.sub_diag. cbn [SMTLib2Parser.parseToken_loop].
  rewrite Nat.sub_diag. f_equal. f_equal. f_equal.
  apply chars_inj. rewrite chars_substring. reflexivity.
Qed.

(** X20. White space left over at the head of the loop ends the run with
    [bad_variant_access]. *)
Lemma mainLoop_allWhiteSpace fuel inputToParse st :
  inputToParse <> "" ->
  allWhiteSpace inputToParse ->
  mainLoop u256 str checkResult (S fuel) inputToParse st
  = Some (Throw bad_variant_access).
Proof.
  intros Hne Hws. destruct inputToParse as [|c input]; [contradiction|].
  cbn [mainLoop]. rewrite (parseExpression_allWhiteSpace _ Hws). reflexivity.
Qed.

End MainLoopFacts.

(** ** The reader: a closing parenthesis supplied at the end *)

Section ClosingParenthesis.

Variable data : string.
Hypothesis data_noPipe : SMTLib2Parser.noPipe data.

Abbreviation closed := (data +:+ ")").
Abbreviation L := (SMTLib2Parser.size data).
Abbreviation alongside := (SMTLib2Parser.alongside data).

Lemma size_closed : SMTLib2Parser.size closed = S L.
Proof. unfold SMTLib2Parser.size. rewrite length_append. simpl. lia. Qed.

Lemma token_closed_lt pos :
  pos < L -> SMTLib2Parser.token closed pos = SMTLib2Parser.token data pos.
Proof.
  intros H. unfold SMTLib2Parser.token.
  rewrite !chars_get, chars_append, lookup_app_l; [reflexivity|].
  now rewrite chars_length.
Qed.

Lemma token_closed_end : SMTLib2Parser.token closed L = ")"%char.
Proof.
  unfold SMTLib2Parser.token, SMTLib2Parser.size.
  replace (String.length data) with (String.length data + 0) by lia.
  now rewrite get_append_r.
Qed.

Lemma token_not_pipe pos : ascii_eqb (SMTLib2Parser.token data pos) "|" = false.
Proof.
  unfold SMTLib2Parser.token.
  destruct (String.get pos data) as [c|] eqn:Hc; [|reflexivity].
  apply Ascii.eqb_neq. intros ->. now apply (data_noPipe pos).
Qed.

Lemma token_closed_not_pipe pos :
  pos <= L -> ascii_eqb (SMTLib2Parser.token closed pos) "|" = false.
Proof.
  intros H. destruct (Nat.eq_dec pos L) as [->|Hne].
  - now rewrite token_closed_end.
  - rewrite token_closed_lt by lia. apply token_not_pipe.
Qed.

Lemma skipWhitespace_loop_closed n pos :
  pos + n = L ->
  SMTLib2Parser.skipWhitespace_loop closed (S n) pos
  = SMTLib2Parser.skipWhitespace_loop data n pos.
Proof.
  revert pos. induction n as [|n IH]; intros pos Hn.
  - assert (pos = L) as -> by lia. simpl. now rewrite token_closed_end.
  - cbn [SMTLib2Parser.skipWhitespace_loop]. rewrite token_closed_lt by lia.
    destruct (isWhiteSpace _); [|reflexivity].
    apply (IH (S pos)). lia.
Qed.

Lemma skipWhitespace_closed pos :
  pos <= L -> SMTLib2Parser.skipWhitespace closed pos = SMTLib2Parser.skipWhitespace data pos.
Proof.
  intros H. unfold SMTLib2Parser.skipWhitespace. rewrite size_closed.
  replace (S L - pos) with (S (L - pos)) by lia.
  apply skipWhitespace_loop_closed. lia.
Qed.

Lemma skipWhitespace_closed_end : SMTLib2Parser.skipWhitespace closed (S L) = S L.
Proof.
  unfold SMTLib2Parser.skipWhitespace. rewrite size_closed, Nat.sub_diag. reflexivity.
Qed.

Lemma skipWhitespace_end : SMTLib2Parser.skipWhitespace data L = L.
Proof. unfold SMTLib2Parser.skipWhitespace. now rewrite Nat.sub_diag. Qed.

Lemma parseToken_loop_S (text : string) n start pos :
  SMTLib2Parser.parseToken_loop text (S n) start false pos =
  if (pos <? SMTLib2Parser.size text)%nat then
    if isWhiteSpace (SMTLib2Parser.token text pos)
       || ascii_eqb (SMTLib2Parser.token text pos) "("
       || ascii_eqb (SMTLib2Parser.token text pos) ")"
    then pos
    else SMTLib2Parser.parseToken_loop text n start false (S pos)
  else pos.
Proof. reflexivity. Qed.

Lemma parseToken_loop_closed n start pos :
  pos + n = L ->
  SMTLib2Parser.parseToken_loop closed (S n) start false pos
  = SMTLib2Parser.parseToken_loop data n start false pos.
Proof.
  revert pos. induction n as [|n IH]; intros pos Hn.
  - assert (pos = L) as -> by lia. rewrite parseToken_loop_S.
    rewrite size_closed, token_closed_end.
    replace (L <? S L)%nat with true by (symmetry; apply Nat.ltb_lt; lia).
    reflexivity.
  - rewrite (parseToken_loop_S closed), (parseToken_loop_S data).
    rewrite size_closed, token_closed_lt by lia.
    replace (pos <? S L)%nat with true by (symmetry; apply Nat.ltb_lt; lia).
    replace (pos <? L)%nat with true by (symmetry; apply Nat.ltb_lt; lia).
    destruct (isWhiteSpace _ || _ || _); [reflexivity|].
    apply IH. lia.
Qed.

Lemma substring_closed start m :
  start + m <= L -> substring start m closed = substring start m data.
Proof.
  intros H. apply chars_inj. rewrite !chars_substring, chars_append.
  unfold SMTLib2Parser.size in H. rewrite <- chars_length in H.
  rewrite drop_app_le by lia. apply take_app_le. rewrite length_drop. lia.
Qed.

Lemma parseToken_closed pos :
  pos <= L -> SMTLib2Parser.parseToken closed pos = SMTLib2Parser.parseToken data pos.
Proof.
  intros H. unfold SMTLib2Parser.parseToken.
  rewrite skipWhitespace_closed by assumption.
  pose proof (skipWhitespace_bounds data pos H) as Hb.
  rewrite token_closed_not_pipe, token_not_pipe by lia.
  rewrite size_closed.
  replace (S L - SMTLib2Parser.skipWhitespace data pos)
    with (S (L - SMTLib2Parser.skipWhitespace data pos)) by lia.
  rewrite parseToken_loop_closed by lia.
  pose proof (parseToken_loop_bounds data (L - SMTLib2Parser.skipWhitespace data pos)
                (SMTLib2Parser.skipWhitespace data pos) false
                (SMTLib2Parser.skipWhitespace data pos) (proj2 Hb)) as Hq.
  rewrite substring_closed by lia. reflexivity.
Qed.

Lemma moreSubExpressions_closed_lt pos :
  pos < L ->
  SMTLib2Parser.moreSubExpressions closed pos = SMTLib2Parser.moreSubExpressions data pos.
Proof.
  intros H. unfold SMTLib2Parser.moreSubExpressions. now rewrite token_closed_lt.
Qed.

Lemma moreSubExpressions_past_end text pos :
  SMTLib2Parser.size text <= pos -> SMTLib2Parser.moreSubExpressions text pos = false.
Proof.
  intros H. unfold SMTLib2Parser.moreSubExpressions.
  now rewrite token_past_end.
Qed.

Lemma moreSubExpressions_closed_end : SMTLib2Parser.moreSubExpressions closed L = false.
Proof.
  unfold SMTLib2Parser.moreSubExpressions. now rewrite token_closed_end.
Qed.

(** The two parsers run alongside each other: the same nodes, and positions
    that differ only once the shorter text is exhausted. *)
Lemma parse_fuel_closed fuel :
  (forall pos e q,
      pos <= L ->
      SMTLib2Parser.parseExpression_fuel data fuel pos = Some (e, q) ->
      exists q', SMTLib2Parser.parseExpression_fuel closed fuel pos = Some (e, q')
                 /\ alongside q q')
  /\ (forall pos pos' subs q,
        alongside pos pos' ->
        SMTLib2Parser.parseSubExpressions data fuel pos = Some (subs, q) ->
        exists q', SMTLib2Parser.parseSubExpressions closed fuel pos' = Some (subs, q')
                   /\ alongside q q').
Proof.
  induction fuel as [|fuel [IHE IHS]]; [split; discriminate|].
  split.
  - intros pos e q Hpos.
    cbn [SMTLib2Parser.parseExpression_fuel].
    rewrite skipWhitespace_closed by assumption.
    pose proof (skipWhitespace_bounds data pos Hpos) as Hp1.
    set (p1 := SMTLib2Parser.skipWhitespace data pos) in *.
    destruct (ascii_eqb (SMTLib2Parser.token data p1) "(") eqn:Hopen.
    + assert (Hlt : p1 < L) by (eapply token_eqb_lt; [|exact Hopen]; discriminate).
      rewrite token_closed_lt, Hopen by assumption.
      destruct (SMTLib2Parser.parseSubExpressions data fuel (SMTLib2Parser.advance p1))
        as [[subs p2]|] eqn:Hs; [|discriminate].
      intros [= <- <-].
      destruct (IHS (SMTLib2Parser.advance p1) (SMTLib2Parser.advance p1) subs p2)
        as (p2' & -> & Hal); [left; unfold SMTLib2Parser.advance; lia | exact Hs|].
      unfold SMTLib2Parser.advance in *.
      destruct Hal as [[-> Hle]|[-> ->]].
      * destruct (Nat.eq_dec p2 L) as [->|Hne].
        -- rewrite token_closed_end, (token_past_end data L) by lia.
           eexists. split; [reflexivity|]. right. split; reflexivity.
        -- rewrite token_closed_lt by lia.
           destruct (ascii_eqb (SMTLib2Parser.token data p2) ")");
             (eexists; split; [reflexivity|]; left; split; [reflexivity|lia]).
      * rewrite (token_past_end closed (S L)) by (rewrite size_closed; lia).
        rewrite (token_past_end data L) by lia.
        eexists. split; [reflexivity|]. right. split; reflexivity.
    + assert (Hclosed : ascii_eqb (SMTLib2Parser.token closed p1) "(" = false).
      { destruct (Nat.eq_dec p1 L) as [Heq|Hne].
        - rewrite Heq, token_closed_end. reflexivity.
        - rewrite token_closed_lt by lia. exact Hopen. }
      rewrite Hclosed, parseToken_closed by lia.
      pose proof (parseToken_bounds data p1 (proj2 Hp1)) as Hb.
      destruct (SMTLib2Parser.parseToken data p1) as [sv q0]. simpl in Hb.
      intros [= <- <-]. eexists. split; [reflexivity|]. left. split; [reflexivity|lia].
  - intros pos pos' subs q Hal.
    cbn [SMTLib2Parser.parseSubExpressions].
    destruct Hal as [[-> Hle]|[-> ->]].
    + destruct (Nat.eq_dec pos L) as [->|Hne].
      * rewrite moreSubExpressions_closed_end, (moreSubExpressions_past_end data L) by lia.
        intros [= <- <-]. eexists. split; [reflexivity|]. left. split; [reflexivity|lia].
      * rewrite moreSubExpressions_closed_lt by lia.
        destruct (SMTLib2Parser.moreSubExpressions data pos).
        2:{ intros [= <- <-]. eexists. split; [reflexivity|]. left. split; [reflexivity|lia]. }
        destruct (SMTLib2Parser.parseExpression_fuel data fuel pos)
          as [[e p1]|] eqn:He; [|discriminate].
        destruct (IHE pos e p1 Hle He) as (p1' & -> & Hal1).
        assert (Hal2 : alongside (SMTLib2Parser.skipWhitespace data p1)
                                 (SMTLib2Parser.skipWhitespace closed p1')).
        { destruct Hal1 as [[-> Hle1]|[-> ->]].
          - rewrite skipWhitespace_closed by assumption. left. split; [reflexivity|].
            apply skipWhitespace_bounds. assumption.
          - rewrite skipWhitespace_closed_end, skipWhitespace_end.
            right. split; reflexivity. }
        destruct (SMTLib2Parser.parseSubExpressions data fuel _)
          as [[subs' p2]|] eqn:Hs; [|discriminate].
        intros [= <- <-].
        destruct (IHS _ _ subs' p2 Hal2 Hs) as (p2' & -> & Hal3).
        eexists. split; [reflexivity | exact Hal3].
    + rewrite (moreSubExpressions_past_end data L) by lia.
      rewrite (moreSubExpressions_past_end closed (S L)) by (rewrite size_closed; lia).
      intros [= <- <-]. eexists. split; [reflexivity|]. right. split; reflexivity.
Qed.


End ClosingParenthesis.

(** ** The reader: a list that the end of the input leaves open *)




(** * Further properties of the code *)

(** ** [removeComments] *)

Lemma append_String c s t : String c s +:+ t = String c (s +:+ t).
Proof. reflexivity. Qed.

Lemma append_EmptyString t : "" +:+ t = t.
Proof. reflexivity. Qed.

Lemma without_String c d s : without c (String d s) <-> d <> c /\ without c s.
Proof.
  unfold without. split.
  - intros H. split.
    + intros ->. now apply (H 0).
    + intros i. apply (H (S i)).
  - intros [Hd Hs] [|i]; simpl; [congruence | apply Hs].
Qed.

Lemma removeComments_from_without inComment s :
  without ";" (removeComments_from inComment s).
Proof.
  revert inComment. induction s as [|c s IH]; intros inComment; simpl.
  - intros i. now destruct i.
  - destruct inComment; [apply IH|].
    destruct (ascii_eqb c ";") eqn:Hc; [apply IH|].
    apply without_String. split; [|apply IH].
    intros ->. discriminate.
Qed.

Lemma removeComments_without_id s :
  without ";" s -> removeComments_from false s = s.
Proof.
  induction s as [|c s IH]; intros H; simpl; [reflexivity|].
  apply without_String in H. destruct H as [Hc Hs].
  destruct (ascii_eqb c ";") eqn:Heq.
  - apply Ascii.eqb_eq in Heq. contradiction.
  - now rewrite IH.
Qed.

Lemma removeComments_from_length inComment s :
  String.length (removeComments_from inComment s) <= String.length s.
Proof.
  revert inComment. induction s as [|c s IH]; intros inComment; simpl; [lia|].
  destruct inComment; [specialize (IH (negb (ascii_eqb c "010"))); lia|].
  destruct (ascii_eqb c ";"); simpl.
  - specialize (IH true). lia.
  - specialize (IH false). lia.
Qed.

(** X1. The text [removeComments] returns holds no semicolon and is no
    longer than the input; running it again changes nothing. *)
Theorem removeComments_result (_input : string) :
  without ";" (removeComments _input)
  /\ String.length (removeComments _input) <= String.length _input
  /\ removeComments (removeComments _input) = removeComments _input.
Proof.
  split; [apply removeComments_from_without|].
  split; [apply removeComments_from_length|].
  apply removeComments_without_id, removeComments_from_without.
Qed.

Lemma removeComments_from_prefix a t :
  without ";" a ->
  removeComments_from false (a +:+ t) = a +:+ removeComments_from false t.
Proof.
  induction a as [|c a IH]; intros H; [reflexivity|].
  apply without_String in H. destruct H as [Hc Ha].
  rewrite !append_String. simpl.
  destruct (ascii_eqb c ";") eqn:Heq.
  - apply Ascii.eqb_eq in Heq. contradiction.
  - now rewrite IH.
Qed.

Lemma removeComments_from_comment c t :
  without "010" c ->
  removeComments_from true (c +:+ newline +:+ t) = removeComments_from false t.
Proof.
  induction c as [|d c IH]; intros H.
  - reflexivity.
  - apply without_String in H. destruct H as [Hd Hc].
    rewrite append_String. simpl.
    destruct (ascii_eqb d "010") eqn:Heq.
    + apply Ascii.eqb_eq in Heq. contradiction.
    + now apply IH.
Qed.

Lemma removeComments_from_open_comment c :
  without "010" c -> removeComments_from true c = "".
Proof.
  induction c as [|d c IH]; intros H; [reflexivity|].
  apply without_String in H. destruct H as [Hd Hc]. simpl.
  destruct (ascii_eqb d "010") eqn:Heq.
  - apply Ascii.eqb_eq in Heq. contradiction.
  - now apply IH.
Qed.

(** X2. A comment goes together with the line feed that ends it: of a
    line [a;c] followed by the text [b], what is left is [a] directly
    followed by what is left of [b]; a comment that the input ends in is
    dropped whole. *)
Theorem removeComments_comment_line (a c b : string) :
  without ";" a ->
  without "010" c ->
  removeComments (a +:+ ";" +:+ c +:+ newline +:+ b) = a +:+ removeComments b
  /\ removeComments (a +:+ ";" +:+ c) = a +:+ "".
Proof.
  intros Ha Hc. unfold removeComments. split.
  - rewrite removeComments_from_prefix by assumption.
    rewrite append_String, append_EmptyString.
    cbn [removeComments_from ascii_eqb]. change (Ascii.eqb ";" ";") with true. cbv iota.
    now rewrite removeComments_from_comment.
  - rewrite removeComments_from_prefix by assumption.
    rewrite append_String, append_EmptyString.
    cbn [removeComments_from ascii_eqb]. change (Ascii.eqb ";" ";") with true. cbv iota.
    now rewrite removeComments_from_open_comment.
Qed.

Lemma removeComments_comment_line_witness :
  removeComments ("(assert x" +:+ ";" +:+ " the bound" +:+ newline +:+ "y)")
  = "(assert x" +:+ removeComments "y)".
Proof.
  apply (removeComments_comment_line "(assert x" " the bound" "y)").
  - intros i. do 10 (destruct i as [|i]; [discriminate|]). destruct i; discriminate.
  - intros i. do 10 (destruct i as [|i]; [discriminate|]). destruct i; discriminate.
Defined.

(** ** The reader: atoms *)

Section AtomFacts.

Variable data : string.

Lemma reads_token pos s i c :
  reads data pos s -> String.get i s = Some c -> SMTLib2Parser.token data (pos + i) = c.
Proof.
  intros H Hc. unfold SMTLib2Parser.token. now rewrite (H i c Hc).
Qed.

Lemma reads_lt pos s i c :
  reads data pos s -> String.get i s = Some c -> pos + i < SMTLib2Parser.size data.
Proof.
  intros H Hc. specialize (H i c Hc).
  rewrite chars_get in H. apply lookup_lt_Some in H. now rewrite chars_length in H.
Qed.

Lemma reads_append pos a b :
  reads data pos (a +:+ b) <-> reads data pos a /\ reads data (pos + String.length a) b.
Proof.
  unfold reads. split.
  - intros H. split; intros i c Hc.
    + apply H. rewrite chars_get, chars_append in *.
      now apply lookup_app_l_Some.
    + rewrite <- Nat.add_assoc. apply H. now rewrite get_append_r.
  - intros [Ha Hb] i c Hc.
    destruct (Nat.lt_ge_cases i (String.length a)) as [Hlt|Hge].
    + apply Ha. rewrite chars_get, chars_append, lookup_app_l in Hc
        by (now rewrite chars_length).
      now rewrite chars_get.
    + replace i with (String.length a + (i - String.length a)) in Hc by lia.
      rewrite get_append_r in Hc. apply Hb in Hc.
      now replace (pos + String.length a + (i - String.length a)) with (pos + i) in Hc by lia.
Qed.

Lemma reads_substring pos s :
  reads data pos s -> substring pos (String.length s) data = s.
Proof.
  intros H. apply chars_inj. rewrite chars_substring. apply list_eq. intros i.
  destruct (Nat.lt_ge_cases i (String.length s)) as [Hlt|Hge].
  - rewrite lookup_take_lt by assumption. rewrite lookup_drop.
    destruct (get_lt s i Hlt) as [c Hc].
    rewrite <- !chars_get. now rewrite Hc, (H i c Hc).
  - rewrite lookup_take_ge by assumption. symmetry.
    apply lookup_ge_None. now rewrite chars_length.
Qed.

Lemma reads_String pos c s :
  reads data pos (String c s) <->
  String.get pos data = Some c /\ reads data (S pos) s.
Proof.
  unfold reads. split.
  - intros H. split.
    + specialize (H 0 c eq_refl). now rewrite Nat.add_0_r in H.
    + intros i d Hd. specialize (H (S i) d Hd).
      now replace (pos + S i) with (S pos + i) in H by lia.
  - intros [Hc Hs] [|i] d Hd; simpl in Hd.
    + injection Hd as <-. now rewrite Nat.add_0_r.
    + replace (pos + S i) with (S pos + i) by lia. now apply Hs.
Qed.

Lemma parseToken_loop_quoted_S n start pos :
  SMTLib2Parser.parseToken_loop data (S n) start true pos =
  if (pos <? SMTLib2Parser.size data)%nat then
    if (start <? pos)%nat && ascii_eqb (SMTLib2Parser.token data pos) "|"
    then S pos
    else SMTLib2Parser.parseToken_loop data n start true (S pos)
  else pos.
Proof. reflexivity. Qed.

(** The loop over an unquoted atom: it passes the characters that are no
    delimiters and stops at the first that is one, or at the end. *)
Lemma parseToken_loop_plain k :
  forall pos n start,
    (forall i, i < k -> isDelimiter (SMTLib2Parser.token data (pos + i)) = false) ->
    pos + k <= SMTLib2Parser.size data ->
    atEnd data (pos + k) ->
    k <= n ->
    SMTLib2Parser.parseToken_loop data n start false pos = pos + k.
Proof.
  induction k as [|k IH]; intros pos n start Hbody Hsize Hend Hn.
  - rewrite Nat.add_0_r in *. destruct n as [|n]; [reflexivity|].
    rewrite parseToken_loop_S.
    destruct (pos <? SMTLib2Parser.size data)%nat eqn:Hlt; [|reflexivity].
    apply Nat.ltb_lt in Hlt. destruct Hend as [Hge|Hd]; [lia|].
    unfold isDelimiter in Hd. now rewrite Hd.
  - destruct n as [|n]; [lia|]. rewrite parseToken_loop_S.
    replace (pos <? SMTLib2Parser.size data)%nat with true
      by (symmetry; apply Nat.ltb_lt; lia).
    pose proof (Hbody 0 ltac:(lia)) as H0. rewrite Nat.add_0_r in H0.
    unfold isDelimiter in H0. rewrite H0.
    rewrite (IH (S pos) n start); [lia| |lia| |lia].
    + intros i Hi. replace (S pos + i) with (pos + S i) by lia. apply Hbody. lia.
    + now replace (S pos + k) with (pos + S k) by lia.
Qed.

(** The loop inside a quoted atom: it passes every character up to the
    next quote, which it consumes, or up to the end of the text. *)
Lemma parseToken_loop_quoted k :
  forall pos n start,
    start < pos ->
    (forall i, i < k -> SMTLib2Parser.token data (pos + i) <> "|"%char) ->
    pos + k <= SMTLib2Parser.size data ->
    (pos + k < SMTLib2Parser.size data -> SMTLib2Parser.token data (pos + k) = "|"%char) ->
    SMTLib2Parser.size data - pos <= n ->
    SMTLib2Parser.parseToken_loop data n start true pos =
    if (pos + k <? SMTLib2Parser.size data)%nat then S (pos + k) else pos + k.
Proof.
  induction k as [|k IH]; intros pos n start Hstart Hbody Hsize Hquote Hn.
  - rewrite Nat.add_0_r in *.
    destruct (pos <? SMTLib2Parser.size data)%nat eqn:Hlt.
    + apply Nat.ltb_lt in Hlt. destruct n as [|n]; [lia|].
      rewrite parseToken_loop_quoted_S.
      replace (pos <? SMTLib2Parser.size data)%nat with true
        by (symmetry; apply Nat.ltb_lt; lia).
      rewrite (Hquote Hlt).
      replace (start <? pos)%nat with true by (symmetry; apply Nat.ltb_lt; lia).
      reflexivity.
    + destruct n as [|n]; [reflexivity|].
      rewrite parseToken_loop_quoted_S. now rewrite Hlt.
  - destruct n as [|n]; [lia|]. rewrite parseToken_loop_quoted_S.
    replace (pos <? SMTLib2Parser.size data)%nat with true
      by (symmetry; apply Nat.ltb_lt; lia).
    pose proof (Hbody 0 ltac:(lia)) as H0. rewrite Nat.add_0_r in H0.
    apply Ascii.eqb_neq in H0. unfold ascii_eqb. rewrite H0, andb_false_r.
    rewrite (IH (S pos) n start); [|lia| |lia| |lia].
    + replace (S pos + k) with (pos + S k) by lia. reflexivity.
    + intros i Hi. replace (S pos + i) with (pos + S i) by lia. apply Hbody. lia.
    + replace (S pos + k) with (pos + S k) by lia. exact Hquote.
Qed.

Lemma forallb_lookup {A : Type} (f : A -> bool) (l : list A) i x :
  forallb f l = true -> l !! i = Some x -> f x = true.
Proof.
  revert i. induction l as [|y l IH]; intros i H Hx; [destruct i; discriminate|].
  simpl in H. apply andb_true_iff in H. destruct H as [Hy Hl].
  destruct i as [|i]; simpl in Hx.
  - now injection Hx as <-.
  - now apply (IH i).
Qed.

Lemma isDelimiter_not_space c : isDelimiter c = false -> isWhiteSpace c = false.
Proof.
  unfold isDelimiter. rewrite !orb_false_iff. tauto.
Qed.

(** An unquoted atom in the text, followed by a delimiter or the end. *)
Lemma parseToken_plain pos sv :
  plainAtom sv = true ->
  reads data pos sv ->
  atEnd data (pos + String.length sv) ->
  SMTLib2Parser.parseToken data pos = (sv, pos + String.length sv).
Proof.
  intros Hplain Hreads Hend.
  destruct sv as [|c s]; [discriminate|].
  unfold plainAtom in Hplain.
  rewrite !andb_true_iff, !negb_true_iff in Hplain. destruct Hplain as [[_ Hpipe] Hall].
  assert (Hchars : forall i d, String.get i (String c s) = Some d -> isDelimiter d = false).
  { intros i d Hd. rewrite chars_get in Hd.
    apply (forallb_lookup _ _ _ _ Hall) in Hd. now apply negb_true_iff in Hd. }
  assert (Htok : SMTLib2Parser.token data pos = c).
  { rewrite <- (Nat.add_0_r pos). now apply (reads_token pos (String c s) 0). }
  assert (Hlen : pos + String.length (String c s) <= SMTLib2Parser.size data).
  { destruct (get_lt (String c s) (String.length s)) as [d Hd]; [simpl; lia|].
    pose proof (reads_lt pos _ _ _ Hreads Hd). simpl. lia. }
  unfold SMTLib2Parser.parseToken.
  rewrite (skipWhitespace_id data pos)
    by (rewrite Htok; apply isDelimiter_not_space, (Hchars 0); reflexivity).
  rewrite Htok. unfold ascii_eqb in Hpipe |- *. rewrite !Hpipe.
  rewrite (parseToken_loop_plain (String.length (String c s))); try assumption; [| |lia].
  - replace (pos + String.length (String c s) - pos) with (String.length (String c s)) by lia.
    now rewrite reads_substring.
  - intros i Hi. destruct (get_lt (String c s) i Hi) as [d Hd].
    rewrite (reads_token pos _ i d Hreads Hd). now apply (Hchars i).
Qed.

(** A quoted atom in the text, up to its second quote. *)
Lemma parseToken_quoted pos body :
  without "|" body ->
  reads data pos ("|" +:+ body +:+ "|") ->
  SMTLib2Parser.parseToken data pos
  = ("|" +:+ body +:+ "|", pos + String.length ("|" +:+ body +:+ "|")).
Proof.
  intros Hbody Hreads.
  assert (Hlen : String.length ("|" +:+ body +:+ "|") = S (S (String.length body))).
  { rewrite append_String, append_EmptyString. simpl. rewrite length_append. simpl. lia. }
  pose proof Hreads as Hr. rewrite append_String, append_EmptyString in Hr.
  apply reads_String in Hr. destruct Hr as [Hfirst Hr].
  apply reads_append in Hr. destruct Hr as [Hb Hlast].
  apply reads_String in Hlast. destruct Hlast as [Hlast _].
  assert (Htok : SMTLib2Parser.token data pos = "|"%char)
    by (unfold SMTLib2Parser.token; now rewrite Hfirst).
  assert (Hsize : S pos + String.length body < SMTLib2Parser.size data).
  { rewrite chars_get in Hlast. apply lookup_lt_Some in Hlast.
    now rewrite chars_length in Hlast. }
  unfold SMTLib2Parser.parseToken.
  rewrite (skipWhitespace_id data pos) by (now rewrite Htok).
  rewrite Htok. change (ascii_eqb "|" "|") with true.
  destruct (SMTLib2Parser.size data - pos) as [|n] eqn:Hn; [lia|].
  rewrite parseToken_loop_quoted_S.
  replace (pos <? SMTLib2Parser.size data)%nat with true
    by (symmetry; apply Nat.ltb_lt; lia).
  rewrite Nat.ltb_irrefl, andb_false_l.
  rewrite (parseToken_loop_quoted (String.length body)); [|lia| |lia| |lia].
  - replace (S pos + String.length body <? SMTLib2Parser.size data)%nat with true
      by (symmetry; apply Nat.ltb_lt; lia).
    rewrite Hlen.
    replace (S (S pos + String.length body) - pos) with (String.length ("|" +:+ body +:+ "|"))
      by (rewrite Hlen; lia).
    rewrite reads_substring by assumption. f_equal. lia.
  - intros i Hi. destruct (get_lt body i Hi) as [d Hd].
    rewrite (reads_token (S pos) body i d Hb Hd). intros ->. now apply (Hbody i).
  - intros _. unfold SMTLib2Parser.token. now rewrite Hlast.
Qed.

(** A quoted atom that the text ends in, with no second quote. *)
Lemma parseToken_quoted_open pos body :
  without "|" body ->
  reads data pos ("|" +:+ body) ->
  pos + S (String.length body) = SMTLib2Parser.size data ->
  SMTLib2Parser.parseToken data pos = ("|" +:+ body, SMTLib2Parser.size data).
Proof.
  intros Hbody Hreads Hsize.
  pose proof Hreads as Hr. rewrite append_String, append_EmptyString in Hr.
  apply reads_String in Hr. destruct Hr as [Hfirst Hb].
  assert (Htok : SMTLib2Parser.token data pos = "|"%char)
    by (unfold SMTLib2Parser.token; now rewrite Hfirst).
  unfold SMTLib2Parser.parseToken.
  rewrite (skipWhitespace_id data pos) by (now rewrite Htok).
  rewrite Htok. change (ascii_eqb "|" "|") with true.
  destruct (SMTLib2Parser.size data - pos) as [|n] eqn:Hn; [lia|].
  rewrite parseToken_loop_quoted_S.
  replace (pos <? SMTLib2Parser.size data)%nat with true
    by (symmetry; apply Nat.ltb_lt; lia).
  rewrite Nat.ltb_irrefl, andb_false_l.
  rewrite (parseToken_loop_quoted (String.length body)); [|lia| |lia|lia|lia].
  - replace (S pos + String.length body <? SMTLib2Parser.size data)%nat with false
      by (symmetry; apply Nat.ltb_ge; lia).
    replace (S pos + String.length body - pos) with (String.length ("|" +:+ body))
      by (rewrite append_String, append_EmptyString; simpl; lia).
    rewrite reads_substring by assumption. f_equal. lia.
  - intros i Hi. destruct (get_lt body i Hi) as [d Hd].
    rewrite (reads_token (S pos) body i d Hb Hd). intros ->. now apply (Hbody i).
Qed.

(** Where no white space and no opening parenthesis stands, an atom is
    read. *)
Lemma parseExpression_fuel_atom fuel pos :
  isWhiteSpace (SMTLib2Parser.token data pos) = false ->
  ascii_eqb (SMTLib2Parser.token data pos) "(" = false ->
  SMTLib2Parser.parseExpression_fuel data (S fuel) pos
  = Some (Atom (SMTLib2Parser.parseToken data pos).1, (SMTLib2Parser.parseToken data pos).2).
Proof.
  intros Hw Hopen. cbn [SMTLib2Parser.parseExpression_fuel].
  rewrite (skipWhitespace_id data pos Hw), Hopen.
  now destruct (SMTLib2Parser.parseToken data pos).
Qed.

Lemma parseExpression_atom pos :
  isWhiteSpace (SMTLib2Parser.token data pos) = false ->
  ascii_eqb (SMTLib2Parser.token data pos) "(" = false ->
  SMTLib2Parser.parseExpression data pos
  = Some (Atom (SMTLib2Parser.parseToken data pos).1, (SMTLib2Parser.parseToken data pos).2).
Proof.
  intros Hw Hopen. unfold SMTLib2Parser.parseExpression, SMTLib2Parser.parseFuel.
  replace (2 * (SMTLib2Parser.size data - pos) + 2)
    with (S (2 * (SMTLib2Parser.size data - pos) + 1)) by lia.
  now apply parseExpression_fuel_atom.
Qed.

End AtomFacts.

(** ** The reader: reading back what [toString] prints *)

Lemma concat_cons_cons sep x y l :
  String.concat sep (x :: y :: l) = x +:+ sep +:+ String.concat sep (y :: l).
Proof. reflexivity. Qed.

Lemma reads_self s : reads s 0 s.
Proof. intros i c H. exact H. Qed.

Lemma skipWhitespace_one data pos :
  isWhiteSpace (SMTLib2Parser.token data pos) = true ->
  isWhiteSpace (SMTLib2Parser.token data (S pos)) = false ->
  SMTLib2Parser.skipWhitespace data pos = S pos.
Proof.
  intros Hw Hn.
  assert (Hlt : pos < SMTLib2Parser.size data).
  { apply token_not_NUL_lt. intros HN. rewrite HN in Hw. discriminate. }
  unfold SMTLib2Parser.skipWhitespace.
  destruct (SMTLib2Parser.size data - pos) as [|n] eqn:Hsz; [lia|].
  cbn [SMTLib2Parser.skipWhitespace_loop]. rewrite Hw.
  now apply skipWhitespace_loop_id.
Qed.

(** The text of a printable node starts with a character that is no white
    space, not the character 0 and no closing parenthesis. *)
Lemma toString_first e :
  printable e ->
  exists c s, toString e = String c s /\
              isWhiteSpace c = false /\ c <> NUL /\ c <> ")"%char.
Proof.
  intros H. inversion H as [sv Hplain|body Hbody|l Hl]; subst.
  - destruct sv as [|c s]; [discriminate|]. exists c, s.
    unfold plainAtom in Hplain.
    rewrite !andb_true_iff, !negb_true_iff in Hplain.
    destruct Hplain as [[HN _] Hall]. simpl in Hall.
    apply andb_true_iff in Hall. destruct Hall as [Hc _].
    apply negb_true_iff in Hc. unfold isDelimiter in Hc.
    rewrite !orb_false_iff in Hc. destruct Hc as [[Hw _] Hr].
    split; [reflexivity|]. split; [exact Hw|].
    split; intros ->; [discriminate HN | discriminate Hr].
  - exists "|"%char, (body +:+ "|"). repeat split; discriminate.
  - exists "("%char, (joinHumanReadable (map toString l) " " +:+ ")").
    repeat split; discriminate.
Qed.

Lemma moreSubExpressions_first data pos c :
  SMTLib2Parser.token data pos = c -> c <> NUL -> c <> ")"%char ->
  SMTLib2Parser.moreSubExpressions data pos = true.
Proof.
  intros Hc HN Hr. unfold SMTLib2Parser.moreSubExpressions, ascii_eqb.
  rewrite Hc. apply Ascii.eqb_neq in HN, Hr. now rewrite HN, Hr.
Qed.

(** The loop over the sub-expressions reads back the elements printed with
    one space between them, up to the closing parenthesis. *)
Lemma parseSubExpressions_readsBack l :
  Forall (fun e => printable e /\ readsBack e) l ->
  forall data pos fuel r,
    reads data pos (joinHumanReadable (map toString l) " " +:+ ")") ->
    SMTLib2Parser.parseSubExpressions data fuel pos = Some r ->
    r = (l, pos + String.length (joinHumanReadable (map toString l) " ")).
Proof.
  unfold joinHumanReadable.
  induction 1 as [|e l [Hp He] Hl IH]; intros data pos fuel r Hreads Hparse.
  - destruct fuel as [|fuel]; [discriminate|].
    cbn [SMTLib2Parser.parseSubExpressions] in Hparse.
    assert (Htok : SMTLib2Parser.token data pos = ")"%char).
    { rewrite <- (Nat.add_0_r pos). now apply (reads_token data pos _ 0 _ Hreads). }
    unfold SMTLib2Parser.moreSubExpressions in Hparse. rewrite Htok in Hparse.
    simpl in Hparse. injection Hparse as <-. simpl. now rewrite Nat.add_0_r.
  - destruct fuel as [|fuel]; [discriminate|].
    cbn [SMTLib2Parser.parseSubExpressions] in Hparse.
    destruct (toString_first e Hp) as (c & s & Hstr & Hw & HN & Hr).
    assert (Hre : reads data pos (toString e) /\
                  reads data (pos + String.length (toString e))
                    (match l with
                     | [] => ")"
                     | _ => " " +:+ String.concat " " (map toString l) +:+ ")"
                     end)).
    { destruct l as [|e' l'].
      - simpl in Hreads. now apply reads_append in Hreads.
      - cbn [map] in Hreads. rewrite concat_cons_cons in Hreads.
        apply reads_append in Hreads. destruct Hreads as [Hr1 Hr2].
        rewrite length_append in Hr2.
        apply reads_append in Hr1. destruct Hr1 as [Hr1 Hr3].
        split; [exact Hr1|].
        rewrite length_append in Hr2.
        apply reads_append in Hr3. destruct Hr3 as [Hr3 Hr4].
        apply reads_append. split; [exact Hr3|].
        apply reads_append. split; [exact Hr4|].
        now rewrite !Nat.add_assoc in Hr2. }
    destruct Hre as [Hre Hnext].
    assert (Htok : SMTLib2Parser.token data pos = c).
    { rewrite <- (Nat.add_0_r pos). apply (reads_token data pos (toString e) 0 c Hre).
      now rewrite Hstr. }
    rewrite (moreSubExpressions_first data pos c Htok HN Hr) in Hparse.
    destruct (SMTLib2Parser.parseExpression_fuel data fuel pos) as [[e1 pos1]|] eqn:HE;
      [|discriminate].
    destruct l as [|e' l'].
    + assert (Hclose : SMTLib2Parser.token data (pos + String.length (toString e)) = ")"%char).
      { rewrite <- (Nat.add_0_r (pos + _)). now apply (reads_token data _ _ 0 _ Hnext). }
      apply He in HE; [|exact Hre|right; now rewrite Hclose].
      injection HE as -> ->.
      rewrite (skipWhitespace_id data) in Hparse by (now rewrite Hclose).
      destruct (SMTLib2Parser.parseSubExpressions data fuel _) as [[subs pos2]|] eqn:HS;
        [|discriminate].
      apply (IH data _ fuel _ Hnext) in HS. injection HS as -> ->.
      injection Hparse as <-. simpl. now rewrite Nat.add_0_r.
    + rewrite append_String, append_EmptyString in Hnext.
      apply reads_String in Hnext. destruct Hnext as [Hspace Hnext].
      assert (Hsp : SMTLib2Parser.token data (pos + String.length (toString e)) = " "%char)
        by (unfold SMTLib2Parser.token; now rewrite Hspace).
      apply He in HE; [|exact Hre|right; now rewrite Hsp].
      injection HE as -> ->.
      inversion Hl as [|? ? [Hp' _] _]; subst.
      destruct (toString_first e' Hp') as (c' & s' & Hstr' & Hw' & _ & _).
      assert (Hnext' : reads data (S (pos + String.length (toString e))) (toString e')).
      { cbn [map] in Hnext. destruct l' as [|e'' l''].
        - simpl in Hnext. now apply reads_append in Hnext.
        - cbn [map] in Hnext. rewrite concat_cons_cons in Hnext.
          apply reads_append in Hnext.
          destruct Hnext as [Hn1 _]. now apply reads_append in Hn1. }
      assert (Htok' : SMTLib2Parser.token data (S (pos + String.length (toString e))) = c').
      { rewrite <- (Nat.add_0_r (S _)). apply (reads_token data _ (toString e') 0 c' Hnext').
        now rewrite Hstr'. }
      rewrite (skipWhitespace_one data) in Hparse
        by (rewrite ?Hsp, ?Htok'; (reflexivity || exact Hw')).
      destruct (SMTLib2Parser.parseSubExpressions data fuel _) as [[subs pos2]|] eqn:HS;
        [|discriminate].
      apply (IH data _ fuel _ Hnext) in HS. injection HS as -> ->.
      injection Hparse as <-. f_equal.
      cbn [map]. rewrite concat_cons_cons, !length_append. simpl. lia.
Qed.

Lemma printable_readsBack e : printable e -> readsBack e.
Proof.
  induction e as [e IH] using SMTLib2Expression_descendants_ind.
  intros Hp data pos fuel r Hreads Hend Hparse.
  destruct fuel as [|fuel]; [discriminate|].
  inversion Hp as [sv Hplain|body Hbody|l Hl]; subst.
  - pose proof (parseToken_plain data pos sv Hplain Hreads Hend) as Htok.
    destruct (toString_first _ Hp) as (c & s & Hstr & Hw & _ & _).
    simpl in Hstr. subst sv.
    assert (Hc : SMTLib2Parser.token data pos = c).
    { rewrite <- (Nat.add_0_r pos). now apply (reads_token data pos (String c s) 0 c Hreads). }
    rewrite parseExpression_fuel_atom in Hparse.
    + rewrite Htok in Hparse. simpl in Hparse. now injection Hparse as <-.
    + now rewrite Hc.
    + rewrite Hc. unfold plainAtom in Hplain.
      rewrite !andb_true_iff in Hplain. destruct Hplain as [_ Hall]. simpl in Hall.
      apply andb_true_iff in Hall. destruct Hall as [Hd _].
      apply negb_true_iff in Hd. unfold isDelimiter in Hd.
      rewrite !orb_false_iff in Hd. tauto.
  - simpl in Hreads, Hend |- *.
    pose proof (parseToken_quoted data pos body Hbody Hreads) as Htok.
    assert (Hc : SMTLib2Parser.token data pos = "|"%char).
    { rewrite <- (Nat.add_0_r pos).
      now apply (reads_token data pos ("|" +:+ body +:+ "|") 0 _ Hreads). }
    rewrite parseExpression_fuel_atom in Hparse by (now rewrite Hc).
    rewrite Htok in Hparse. simpl in Hparse. now injection Hparse as <-.
  - cbn [toString] in Hreads, Hend |- *.
    apply descendants_List in IH.
    assert (Hall : Forall (fun e => printable e /\ readsBack e) l).
    { apply Forall_forall. intros x Hx.
      pose proof (proj1 (Forall_forall _ _) Hl x Hx) as Hpx.
      pose proof (proj1 (Forall_forall _ _) IH x Hx) as [HPx _].
      split; [exact Hpx | now apply HPx]. }
    rewrite append_String, append_EmptyString in Hreads.
    apply reads_String in Hreads. destruct Hreads as [Hopen Hinner].
    assert (Hc : SMTLib2Parser.token data pos = "("%char)
      by (unfold SMTLib2Parser.token; now rewrite Hopen).
    cbn [SMTLib2Parser.parseExpression_fuel] in Hparse.
    rewrite (skipWhitespace_id data pos) in Hparse by (now rewrite Hc).
    rewrite Hc in Hparse. change (ascii_eqb "(" "(") with true in Hparse. cbv iota in Hparse.
    destruct (SMTLib2Parser.parseSubExpressions data fuel _) as [[subs pos2]|] eqn:HS;
      [|discriminate].
    unfold SMTLib2Parser.advance in *.
    apply (parseSubExpressions_readsBack l Hall data _ fuel _ Hinner) in HS.
    injection HS as -> ->.
    assert (Hclose : SMTLib2Parser.token data
                       (S pos + String.length (joinHumanReadable (map toString l) " "))
                     = ")"%char).
    { apply reads_append in Hinner. destruct Hinner as [_ Hlast].
      rewrite <- (Nat.add_0_r (_ + _)). now apply (reads_token data _ ")" 0 _ Hlast). }
    change (S pos + String.length (joinHumanReadable (map toString l) " "))
      with (S (pos + String.length (joinHumanReadable (map toString l) " "))) in Hclose.
    rewrite Hclose in Hparse. change (ascii_eqb ")" ")") with true in Hparse.
    cbv iota in Hparse. injection Hparse as <-. f_equal.
    rewrite append_String, append_EmptyString. simpl. rewrite length_append. simpl.
    lia.
Qed.

Lemma printable_parse (e : SMTLib2Expression) (rest : string) :
  printable e ->
  startsDelimited rest ->
  SMTLib2Parser.parseExpression (toString e +:+ rest) 0
  = Some (e, String.length (toString e)).
Proof.
  intros Hp Hrest.
  destruct (parseExpression_total (toString e +:+ rest) 0) as (e' & pos' & Hparse & _);
    [lia|].
  rewrite Hparse.
  rewrite (printable_readsBack e Hp (toString e +:+ rest) 0
             (SMTLib2Parser.parseFuel (toString e +:+ rest) 0) (e', pos'));
    [reflexivity| | |exact Hparse].
  - pose proof (reads_self (toString e +:+ rest)) as Hself.
    now apply reads_append in Hself.
  - destruct rest as [|c rest]; [left|right].
    + unfold SMTLib2Parser.size. rewrite length_append. simpl. lia.
    + unfold SMTLib2Parser.token.
      replace (0 + String.length (toString e)) with (String.length (toString e) + 0) by lia.
      rewrite get_append_r. exact Hrest.
Qed.

(** X3. Printing and reading back: the text [toString] gives for a
    [printable] tree (its unquoted atoms are not empty, hold no white
    space and no parenthesis and start with neither the quote nor the
    character 0; its quoted atoms have no quote inside) is read by
    [parseExpression] as that very tree, up to the end of that text,
    whatever follows it after a delimiter; what follows is the remaining
    input. *)
Theorem parse_toString (e : SMTLib2Expression) (rest : string) :
  printable e ->
  startsDelimited rest ->
  SMTLib2Parser.parseExpression (toString e +:+ rest) 0
  = Some (e, String.length (toString e))
  /\ SMTLib2Parser.remainingInput (toString e +:+ rest) (String.length (toString e)) = rest.
Proof.
  intros Hp Hrest. split; [now apply printable_parse|].
  apply chars_inj. rewrite chars_remainingInput, chars_append, <- chars_length.
  now rewrite drop_app_length.
Qed.

Lemma parse_toString_witness :
  SMTLib2Parser.parseExpression
    (toString (List [Atom "assert"; List [Atom ">"; Atom "|x y|"; Atom "0"]; List []])
     +:+ " (check-sat)") 0
  = Some (List [Atom "assert"; List [Atom ">"; Atom "|x y|"; Atom "0"]; List []], 23).
Proof.
  refine (proj1 (parse_toString
           (List [Atom "assert"; List [Atom ">"; Atom "|x y|"; Atom "0"]; List []])
           " (check-sat)" _ _)).
  - repeat match goal with
           | |- Forall _ _ => constructor
           | |- printable (List _) => apply printable_list
           | |- printable (Atom "|x y|") => apply (printable_quoted "x y")
           | |- printable (Atom _) => apply printable_plain; reflexivity
           end.
    intros i. do 3 (destruct i as [|i]; [discriminate|]). destruct i; discriminate.
  - reflexivity.
Defined.

(** ** The reader: quoted atoms, a stray parenthesis, leading white space *)

Section ReaderEdges.

Variable u256 : string -> option N.
Variable str : N -> string.
Variable checkResult : list SolverCall -> CheckResult.

Lemma length_quoted body :
  String.length ("|" +:+ body +:+ "|") = S (S (String.length body)).
Proof.
  rewrite append_String, append_EmptyString. simpl. rewrite length_append. simpl. lia.
Qed.

(** X4. An atom that starts with the quote is read up to and including
    the next quote, with the white space and the parentheses between them,
    whatever follows; with no second quote it runs to the end of the
    text. *)
Theorem quoted_atom_read (body rest : string) :
  without "|" body ->
  SMTLib2Parser.parseExpression ("|" +:+ body +:+ "|" +:+ rest) 0
  = Some (Atom ("|" +:+ body +:+ "|"), S (S (String.length body)))
  /\ SMTLib2Parser.parseExpression ("|" +:+ body) 0
     = Some (Atom ("|" +:+ body), S (String.length body)).
Proof.
  intros Hbody. split.
  - set (data := "|" +:+ body +:+ "|" +:+ rest).
    pose proof (reads_self data) as Hself. unfold data in Hself at 2.
    rewrite append_String, append_EmptyString in Hself.
    apply reads_String in Hself. destruct Hself as [Hfirst Hself].
    apply reads_append in Hself. destruct Hself as [Hb Hlast].
    rewrite append_String, append_EmptyString in Hlast.
    apply reads_String in Hlast. destruct Hlast as [Hlast _].
    assert (Hreads : reads data 0 ("|" +:+ body +:+ "|")).
    { rewrite append_String, append_EmptyString. apply reads_String.
      split; [exact Hfirst|]. apply reads_append. split; [exact Hb|].
      apply reads_String. split; [exact Hlast|]. intros i c Hc. destruct i; discriminate. }
    assert (Htok : SMTLib2Parser.token data 0 = "|"%char)
      by (unfold SMTLib2Parser.token; now rewrite Hfirst).
    rewrite parseExpression_atom by (now rewrite Htok).
    rewrite (parseToken_quoted data 0 body Hbody Hreads). cbn [fst snd].
    now rewrite length_quoted.
  - set (data := "|" +:+ body).
    assert (Hsize : SMTLib2Parser.size data = S (String.length body)) by reflexivity.
    assert (Htok : SMTLib2Parser.token data 0 = "|"%char) by reflexivity.
    rewrite parseExpression_atom by (now rewrite Htok).
    rewrite (parseToken_quoted_open data 0 body Hbody (reads_self data)) by (rewrite Hsize; lia).
    cbn [fst snd]. now rewrite Hsize.
Qed.

Lemma substring_nothing n s : substring n 0 s = "".
Proof. apply chars_inj. now rewrite chars_substring. Qed.

(** X5. A closing parenthesis where an expression is to start, outside
    any list, is read as the empty atom and is not consumed; [main] then
    ends with [bad_variant_access]. *)
Theorem stray_closing_parenthesis (data : string) (pos : nat) :
  SMTLib2Parser.token data (SMTLib2Parser.skipWhitespace data pos) = ")"%char ->
  SMTLib2Parser.parseExpression data pos
  = Some (Atom "", SMTLib2Parser.skipWhitespace data pos)
  /\ (pos = 0 -> forall fuel st,
        mainLoop u256 str checkResult (S fuel) data st = Some (Throw bad_variant_access)).
Proof.
  intros Htok.
  assert (Hlt : SMTLib2Parser.skipWhitespace data pos < SMTLib2Parser.size data).
  { apply token_not_NUL_lt. rewrite Htok. discriminate. }
  assert (Hparse : SMTLib2Parser.parseExpression data pos
                   = Some (Atom "", SMTLib2Parser.skipWhitespace data pos)).
  { unfold SMTLib2Parser.parseExpression, SMTLib2Parser.parseFuel.
    replace (2 * (SMTLib2Parser.size data - pos) + 2)
      with (S (2 * (SMTLib2Parser.size data - pos) + 1)) by lia.
    cbn [SMTLib2Parser.parseExpression_fuel]. rewrite Htok.
    change (ascii_eqb ")" "(") with false. cbv iota.
    unfold SMTLib2Parser.parseToken. rewrite skipWhitespace_idempotent, Htok.
    change (ascii_eqb ")" "|") with false.
    rewrite (parseToken_loop_plain data 0); [| |lia| |lia].
    - now rewrite Nat.add_0_r, Nat.sub_diag, substring_nothing.
    - intros i Hi. lia.
    - right. now rewrite Nat.add_0_r, Htok. }
  split; [exact Hparse|].
  intros -> fuel st.
  destruct data as [|c data].
  - unfold SMTLib2Parser.token in Htok. simpl in Htok. discriminate.
  - cbn [mainLoop]. rewrite Hparse. reflexivity.
Qed.

Lemma skipWhitespace_step data pos :
  isWhiteSpace (SMTLib2Parser.token data pos) = true ->
  SMTLib2Parser.skipWhitespace data pos = SMTLib2Parser.skipWhitespace data (S pos).
Proof.
  intros Hw.
  assert (Hlt : pos < SMTLib2Parser.size data).
  { apply token_not_NUL_lt. intros HN. rewrite HN in Hw. discriminate. }
  unfold SMTLib2Parser.skipWhitespace.
  replace (SMTLib2Parser.size data - pos) with (S (SMTLib2Parser.size data - S pos)) by lia.
  cbn [SMTLib2Parser.skipWhitespace_loop]. now rewrite Hw.
Qed.

(** The result depends on the start only through the place where the
    white space after it ends. *)
Lemma parseExpression_same_start data pos pos' :
  pos <= SMTLib2Parser.size data ->
  pos' <= SMTLib2Parser.size data ->
  SMTLib2Parser.skipWhitespace data pos = SMTLib2Parser.skipWhitespace data pos' ->
  SMTLib2Parser.parseExpression data pos = SMTLib2Parser.parseExpression data pos'.
Proof.
  intros Hpos Hpos' Hskip.
  destruct (parseExpression_total data pos Hpos) as (e & q & H & _).
  destruct (parseExpression_total data pos' Hpos') as (e' & q' & H' & _).
  rewrite H, H'. f_equal.
  unfold SMTLib2Parser.parseExpression in H, H'.
  set (M := S (SMTLib2Parser.parseFuel data pos + SMTLib2Parser.parseFuel data pos')).
  apply (proj1 (parse_fuel_monotone data _) _ _) with (fuel' := M) in H; [|unfold M; lia].
  apply (proj1 (parse_fuel_monotone data _) _ _) with (fuel' := M) in H'; [|unfold M; lia].
  unfold M in H, H'. cbn [SMTLib2Parser.parseExpression_fuel] in H, H'.
  rewrite Hskip in H. congruence.
Qed.

(** X6. White space in front of an expression is skipped: the expression
    read is the one read without it, and the position is further by the
    length of the white space. *)
Theorem leading_whitespace_skipped (ws s : string) :
  allWhiteSpace ws ->
  SMTLib2Parser.parseExpression (ws +:+ s) 0
  = SMTLib2Parser.moved (String.length ws) (SMTLib2Parser.parseExpression s 0).
Proof.
  intros Hws. set (data := ws +:+ s).
  assert (Hrest : SMTLib2Parser.remainingInput data (String.length ws) = s).
  { apply chars_inj. unfold data.
    rewrite chars_remainingInput, chars_append, <- chars_length.
    now rewrite drop_app_length. }
  assert (Hsize : String.length ws <= SMTLib2Parser.size data).
  { unfold data, SMTLib2Parser.size. rewrite length_append. lia. }
  rewrite <- Hrest.
  rewrite <- (parseExpression_remainingInput data (String.length ws) 0), Nat.add_0_l.
  apply parseExpression_same_start; [lia|exact Hsize|].
  assert (Hall : forall j, j <= String.length ws ->
                   SMTLib2Parser.skipWhitespace data 0 = SMTLib2Parser.skipWhitespace data j).
  { induction j as [|j IH]; intros Hj; [reflexivity|].
    rewrite IH by lia. apply skipWhitespace_step.
    destruct (get_lt ws j) as [c Hc]; [lia|].
    unfold SMTLib2Parser.token, data.
    rewrite chars_get, chars_append, lookup_app_l by (rewrite chars_length; lia).
    rewrite <- chars_get, Hc. now apply (Hws j). }
  now apply Hall.
Qed.

End ReaderEdges.

(** ** The elaborator: larger environments, defined shapes, shadowing *)

Section ElaboratorExtras.

Variable u256 : string -> option N.
Variable str : N -> string.

Abbreviation elab := (toSMTUtilExpression u256 str).
Abbreviation stable := (stable u256 str).
Abbreviation defined := (defined u256 str).

Lemma argumentsLoop_stable rest :
  Forall stable rest ->
  forall acc (E E' : SortEnv) r,
    E ⊆ E' ->
    argumentsLoop elab E rest acc = Ok r ->
    argumentsLoop elab E' rest acc = Ok r.
Proof.
  induction 1 as [|e rest He _ IH]; intros acc E E' r Hsub; simpl; [trivial|].
  destruct (elab e E) as [a| |] eqn:Ha; simpl; try discriminate.
  rewrite (He E E' a Hsub Ha). simpl. now apply IH.
Qed.

Lemma letLoop_stable body bindings :
  stable body ->
  Forall (descendants stable) bindings ->
  forall (E E' S S' : SortEnv) acc r,
    E ⊆ E' -> S ⊆ S' ->
    letLoop elab E body bindings S acc = Ok r ->
    letLoop elab E' body bindings S' acc = Ok r.
Proof.
  intros Hbody. induction 1 as [|binding bindings Hb _ IH];
    intros E E' S S' acc r HE HS; cbn [letLoop].
  - destruct (elab body S) as [b| |] eqn:Hb; simpl; try discriminate.
    now rewrite (Hbody S S' b HS Hb).
  - destruct binding as [sv|elements]; [discriminate|].
    destruct (solAssert (length elements =? 2)%nat); simpl; try discriminate.
    destruct elements as [|e0 [|e1 [|e2 elements]]]; try discriminate.
    destruct (get_string_view e0) as [varName| |]; simpl; try discriminate.
    apply descendants_List in Hb.
    apply Forall_cons in Hb. destruct Hb as [_ Hb].
    apply Forall_cons in Hb. destruct Hb as [[He1 _] _].
    destruct (elab e1 E) as [replacement| |] eqn:Hr; simpl; try discriminate.
    rewrite (He1 E E' replacement HE Hr). simpl.
    apply IH; [exact HE | now apply insert_mono].
Qed.

Lemma toSMTUtilExpression_stable e : stable e.
Proof.
  induction e as [e IH] using SMTLib2Expression_descendants_ind.
  intros E E' r Hsub. destruct e as [_atom|_subExpr].
  - destruct _atom as [|front tail]; [discriminate|]. simpl.
    destruct (isDigit front || ascii_eqb front "."); [trivial|].
    destruct (E !! String front tail) as [s|] eqn:Hs; [|discriminate].
    now rewrite (lookup_weaken _ _ _ _ Hs Hsub).
  - apply descendants_List in IH.
    destruct _subExpr as [|front rest]; [discriminate|].
    apply Forall_cons in IH. destruct IH as [_ IH].
    cbn [toSMTUtilExpression].
    destruct (get_string_view front) as [op| |]; cbn [bind]; try discriminate.
    destruct (String.eqb op "let").
    + destruct (solAssert (length (front :: rest) =? 3)%nat); cbn [bind];
        try discriminate.
      destruct rest as [|bindings [|body [|x rest]]]; try discriminate.
      apply Forall_cons in IH. destruct IH as [[_ Hbindings] IH].
      apply Forall_cons in IH. destruct IH as [[Hbody _] _].
      destruct bindings as [sv|bindings]; [discriminate|].
      apply descendants_List in Hbindings.
      assert (Hbs : Forall (descendants stable) bindings).
      { eapply Forall_impl; [exact Hbindings|]. now intros x [_ Hx]. }
      destruct (letLoop elab E body bindings E []) as [res| |] eqn:Hloop;
        simpl; try discriminate.
      now rewrite (letLoop_stable body bindings Hbody Hbs E E' E E' [] res Hsub Hsub Hloop).
    + assert (Hrest : Forall stable rest).
      { eapply Forall_impl; [exact IH|]. now intros x [Hx _]. }
      destruct (argumentsLoop elab E rest []) as [args| |] eqn:Hargs;
        simpl; try discriminate.
      now rewrite (argumentsLoop_stable rest Hrest [] E E' args Hsub Hargs).
Qed.

(** X8. More variables do no harm: an expression that elaborates in an
    environment elaborates to the same expression in every environment that
    contains it. *)
Theorem elaboration_in_larger_environment (e : SMTLib2Expression)
    (E E' : SortEnv) (r : Expression) :
  E ⊆ E' ->
  toSMTUtilExpression u256 str e E = Ok r ->
  toSMTUtilExpression u256 str e E' = Ok r.
Proof. apply toSMTUtilExpression_stable. Qed.

Lemma argumentsLoop_length (E : SortEnv) rest acc args :
  argumentsLoop elab E rest acc = Ok args ->
  length args = length acc + length rest.
Proof.
  revert acc. induction rest as [|e rest IH]; intros acc; simpl.
  - intros [= <-]. lia.
  - destruct (elab e E) as [a| |]; simpl; try discriminate.
    intros H. apply IH in H. rewrite length_app in H. simpl in H. lia.
Qed.

Lemma argumentsLoop_defined rest :
  Forall defined rest ->
  allNodes definedShape rest ->
  forall (E : SortEnv) acc, argumentsLoop elab E rest acc <> Undefined.
Proof.
  induction 1 as [|e rest He _ IH]; intros Hshape E acc; simpl; [discriminate|].
  destruct Hshape as [Hs Hrest].
  destruct (elab e E) as [a| |] eqn:Ha; simpl.
  - now apply IH.
  - discriminate.
  - now destruct (He Hs E).
Qed.

Lemma letLoop_defined body bindings :
  (forall S : SortEnv, elab body S <> Undefined) ->
  Forall (descendants defined) bindings ->
  bindingValues definedShape bindings ->
  forall (E S : SortEnv) acc, letLoop elab E body bindings S acc <> Undefined.
Proof.
  intros Hbody. induction 1 as [|binding bindings Hb _ IH];
    intros Hshape E S acc; cbn [letLoop].
  - specialize (Hbody S). destruct (elab body S); simpl; congruence.
  - destruct binding as [sv|elements]; [discriminate|].
    destruct elements as [|e0 [|e1 [|e2 elements]]]; try (simpl; discriminate).
    simpl in Hshape. destruct Hshape as [Hv Hrest].
    cbn [length Nat.eqb solAssert bind].
    destruct e0 as [varName|l0]; [|simpl; discriminate].
    cbn [get_string_view bind].
    apply descendants_List in Hb.
    apply Forall_cons in Hb. destruct Hb as [_ Hb].
    apply Forall_cons in Hb. destruct Hb as [[He1 _] _].
    destruct (elab e1 E) as [replacement| |] eqn:Hr; simpl.
    + now apply IH.
    + discriminate.
    + now destruct (He1 Hv E).
Qed.

Lemma toSMTUtilExpression_defined e : defined e.
Proof.
  induction e as [e IH] using SMTLib2Expression_descendants_ind.
  intros Hshape E. destruct e as [_atom|_subExpr].
  - destruct _atom as [|front tail]; [now destruct Hshape|]. simpl.
    destruct (isDigit front || ascii_eqb front ".").
    + destruct (parseRational u256 (String front tail)); discriminate.
    + destruct (E !! String front tail); discriminate.
  - apply descendants_List in IH.
    destruct _subExpr as [|front rest]; [now destruct Hshape|].
    apply Forall_cons in IH. destruct IH as [_ IH].
    destruct front as [op|l0]; [|discriminate].
    cbn [toSMTUtilExpression get_string_view bind].
    cbn [definedShape] in Hshape.
    destruct (String.eqb op "let").
    + destruct rest as [|bindings [|body [|x rest]]]; try (simpl; discriminate).
      apply Forall_cons in IH. destruct IH as [[_ Hbindings] IH].
      apply Forall_cons in IH. destruct IH as [[Hbody _] _].
      destruct bindings as [sv|bindings]; [simpl; discriminate|].
      destruct Hshape as [Hvalues Hshape].
      apply descendants_List in Hbindings.
      assert (Hbs : Forall (descendants defined) bindings).
      { eapply Forall_impl; [exact Hbindings|]. now intros x [_ Hx]. }
      pose proof (letLoop_defined body bindings (Hbody Hshape) Hbs Hvalues E E []) as Hloop.
      cbn [length Nat.eqb solAssert bind].
      destruct (letLoop elab E body bindings E []); simpl; congruence.
    + destruct Hshape as [Hall Hsort].
      assert (Hrest : Forall defined rest).
      { eapply Forall_impl; [exact IH|]. now intros x [Hx _]. }
      pose proof (argumentsLoop_defined rest Hrest Hall E []) as Hloop.
      destruct (argumentsLoop elab E rest []) as [args| |] eqn:Hargs; simpl;
        [|discriminate|congruence].
      destruct (contains boolOperators op); [discriminate|].
      destruct Hsort as [Hc|Hne]; [discriminate|].
      apply argumentsLoop_length in Hargs. simpl in Hargs.
      unfold back_sort. destruct (last args) as [a|] eqn:Hlast; [discriminate|].
      apply last_None in Hlast. subst args. destruct rest; [contradiction|discriminate].
Qed.

(** X9. Where the undefined runs come from: on a tree whose atoms and
    lists are not empty and whose applications of an operator outside the
    boolean ones have an argument, at every node the elaborator gets to,
    the elaboration returns or throws. *)
Theorem elaboration_defined (e : SMTLib2Expression) (E : SortEnv) :
  definedShape e -> toSMTUtilExpression u256 str e E <> Undefined.
Proof. intros H. now apply toSMTUtilExpression_defined. Qed.

Lemma elaborateAll_app nodes nodes' (E : SortEnv) :
  elaborateAll u256 str (nodes ++ nodes') E =
  let* a := elaborateAll u256 str nodes E in
  let* b := elaborateAll u256 str nodes' E in
  Ok (a ++ b).
Proof.
  induction nodes as [|n nodes IH]; simpl.
  - destruct (elaborateAll u256 str nodes' E); reflexivity.
  - destruct (elab n E) as [x| |]; simpl; try reflexivity.
    rewrite IH. destruct (elaborateAll u256 str nodes E); simpl; try reflexivity.
    destruct (elaborateAll u256 str nodes' E); reflexivity.
Qed.

(** X10. The body of a [let] sees the last binding of a name: a variable
    bound last elaborates, in the body, at the sort of the value of that
    binding, whatever the environment and the bindings before hold for
    the name. *)
Theorem let_last_binding_wins
    (xvs : list (string * SMTLib2Expression)) (c : ascii) (t : string)
    (v : SMTLib2Expression) (vals : list Expression) (a : Expression) (E : SortEnv) :
  isDigit c || ascii_eqb c "." = false ->
  elaborateAll u256 str (map snd xvs) E = Ok vals ->
  toSMTUtilExpression u256 str v E = Ok a ->
  let x := String c t in
  toSMTUtilExpression u256 str
    (List [Atom "let"; List (map mkBinding (xvs ++ [(x, v)])); Atom x]) E
  = Ok (mkExpression "let"
          (zip_with bindingNode (map fst xvs) vals
           ++ [bindingNode x a; mkExpression x [] (sort a)])
          (sort a)).
Proof.
  intros Hid Hvals Hv x.
  assert (Hlen : length (map fst xvs) = length vals).
  { apply elaborateAll_Ok, Forall2_length in Hvals.
    now rewrite !length_map in *. }
  rewrite let_equation, !map_app. cbn [map fst snd].
  rewrite elaborateAll_app, Hvals. cbn [bind elaborateAll]. rewrite Hv. cbn [bind].
  rewrite map_app. cbn [map].
  rewrite !zip_with_app by (rewrite ?length_map in *; exact Hlen).
  unfold extend. rewrite fold_left_app. cbn [zip_with fold_left fst snd].
  assert (Hbody : elab (Atom x)
                    (<[x := sort a]>
                       (fold_left (fun m b => <[b.1 := b.2]> m)
                                  (zip (map fst xvs) (map sort vals)) E))
                  = Ok (mkExpression x [] (sort a))).
  { unfold x. cbn [toSMTUtilExpression]. rewrite Hid. now rewrite lookup_insert_eq. }
  rewrite Hbody. cbn [bind sort].
  now rewrite <- app_assoc.
Qed.

End ElaboratorExtras.

(** ** The command loop: what a run keeps and how it ends *)

Section RunFacts.

Variable u256 : string -> option N.
Variable str : N -> string.
Variable checkResult : list SolverCall -> CheckResult.

Lemma declaredSort_snoc x calls call :
  declaredSort x (calls ++ [call]) =
  match call with
  | declareVariable y s => if String.eqb y x then Some s else declaredSort x calls
  | _ => declaredSort x calls
  end.
Proof. unfold declaredSort. rewrite fold_left_app. reflexivity. Qed.

Lemma checks_snoc calls call :
  checks (calls ++ [call]) =
  checks calls + match call with check => 1 | _ => 0 end.
Proof.
  unfold checks. rewrite List.filter_app, length_app.
  destruct call; simpl; lia.
Qed.

(** The cases of one iteration that goes through. *)
Lemma loopBody_Ok expr st c st' :
  loopBody u256 str checkResult expr st = Ok (c, st') ->
  (c = Continue /\ st' = st)
  \/ (exists name s, c = Continue /\ st' = declared name s st)
  \/ (exists e, c = Continue /\ st' = asserted e st)
  \/ (exists line, In line ["sat"; "unsat"; "unknown"] /\ c = Continue /\
                   st' = {| variableSorts := variableSorts st;
                            solver := solver st ++ [check];
                            cout := cout st ++ [line] |})
  \/ (c = Return 0 /\ st' = st).
Proof.
  intros H.
  destruct (command expr) as [cmd| |] eqn:Hcmd.
  - apply command_Ok in Hcmd. destruct Hcmd as [rest ->].
    destruct (String.eqb cmd "declare-fun") eqn:Hd.
    { apply String.eqb_eq in Hd. subst cmd.
      destruct (declare_fun_cases u256 str checkResult rest st)
        as [(name & ty & s & _ & _ & Hrun)|[_ [e He]]].
      - rewrite Hrun in H. injection H as <- <-. right. left. eauto.
      - rewrite He in H. discriminate. }
    unfold loopBody in H. simpl in H. rewrite Hd in H.
    destruct (String.eqb cmd "set-info"); [injection H as <- <-; now left|].
    destruct (String.eqb cmd "define-fun"); [injection H as <- <-; now left|].
    destruct (String.eqb cmd "assert").
    { destruct rest as [|i1 [|i2 rest]]; try discriminate. simpl in H.
      destruct (toSMTUtilExpression u256 str i1 (variableSorts st)) as [e| |];
        try discriminate.
      simpl in H. injection H as <- <-. right. right. left. eauto. }
    destruct (String.eqb cmd "set-logic"); [injection H as <- <-; now left|].
    destruct (String.eqb cmd "check-sat").
    { injection H as <- <-. right. right. right. left.
      eexists. split; [|split; reflexivity].
      destruct (checkResult (solver st)); simpl; auto. }
    destruct (String.eqb cmd "exit"); [injection H as <- <-; now do 4 right|].
    discriminate.
  - unfold loopBody in H. destruct expr as [sv|items]; [discriminate|].
    cbn [get_vector bind] in H. rewrite Hcmd in H. discriminate.
  - unfold loopBody in H. destruct expr as [sv|items]; [discriminate|].
    cbn [get_vector bind] in H. rewrite Hcmd in H. discriminate.
Qed.

(** What holds before a run and is kept by every iteration holds at its
    end, and a run that ends ends with code 0. *)
Lemma mainLoop_keeps (I : State -> Prop) :
  (forall expr st c st',
      I st -> loopBody u256 str checkResult expr st = Ok (c, st') -> I st') ->
  forall fuel inputToParse st code st',
    I st ->
    mainLoop u256 str checkResult fuel inputToParse st = Some (Ok (code, st')) ->
    I st' /\ code = 0%Z.
Proof.
  intros Hkeep. induction fuel as [|fuel IH]; intros input st code st' HI H.
  - destruct input; [|discriminate]. simpl in H. injection H as <- <-. now split.
  - destruct input as [|ch input]; [simpl in H; injection H as <- <-; now split|].
    cbn [mainLoop] in H.
    destruct (SMTLib2Parser.parseExpression (String ch input) 0) as [[expr m_pos]|];
      [|discriminate].
    destruct (loopBody u256 str checkResult expr st) as [[[|code0] st0]| |] eqn:Hbody;
      try discriminate.
    + apply (IH _ _ _ _ (Hkeep _ _ _ _ HI Hbody) H).
    + injection H as <- <-. split; [exact (Hkeep _ _ _ _ HI Hbody)|].
      apply loopBody_Ok in Hbody.
      destruct Hbody as [[Hc _]|[(? & ? & Hc & _)|[(? & Hc & _)|[(? & _ & Hc & _)|[Hc _]]]]];
        try discriminate.
      now injection Hc as ->.
Qed.

Lemma loopBody_consistent expr st c st' :
  consistent st ->
  loopBody u256 str checkResult expr st = Ok (c, st') ->
  consistent st'.
Proof.
  intros (Henv & Hlines & Hwords) H. apply loopBody_Ok in H.
  destruct H as [[_ ->]|[(name & s & _ & ->)|[(e & _ & ->)|[(line & Hline & _ & ->)|[_ ->]]]]];
    unfold consistent, declared, asserted; cbn [variableSorts solver cout].
  - now repeat split.
  - repeat split; [|now rewrite checks_snoc, Nat.add_0_r|exact Hwords].
    intros x. rewrite declaredSort_snoc, lookup_insert.
    destruct (String.eqb_spec name x) as [->|Hne].
    + now rewrite decide_True.
    + rewrite decide_False by assumption. apply Henv.
  - repeat split; [|now rewrite checks_snoc, Nat.add_0_r|exact Hwords].
    intros x. rewrite declaredSort_snoc. apply Henv.
  - repeat split.
    + intros x. rewrite declaredSort_snoc. apply Henv.
    + rewrite checks_snoc, length_app. simpl. lia.
    + apply Forall_app. split; [exact Hwords|]. now constructor.
  - now repeat split.
Qed.

Lemma initialState_consistent : consistent initialState.
Proof.
  split; [intros x; apply lookup_empty|]. split; [reflexivity | constructor].
Qed.

Lemma run_consistent content code st :
  run u256 str checkResult content = Some (Ok (code, st)) ->
  consistent st /\ code = 0%Z.
Proof.
  unfold run. apply (mainLoop_keeps consistent).
  - intros expr st0 c st0'. apply loopBody_consistent.
  - apply initialState_consistent.
Qed.

(** X11. At the end of a run the sort environment holds exactly what was
    declared to the solver: a name has the sort of its last
    [declareVariable] call, and no sort if there was none. *)
Theorem environment_matches_declarations (content : string) (code : Z) (st : State) :
  run u256 str checkResult content = Some (Ok (code, st)) ->
  forall x, variableSorts st !! x = declaredSort x (solver st).
Proof. intros H. now apply run_consistent in H as [[Henv _] _]. Qed.

(** X12. When [main] is given one argument and returns, it has printed
    one line for every [check] it asked of the solver and nothing else,
    and each line is [sat], [unsat] or [unknown]. *)
Theorem one_verdict_per_check (readFileAsString : string -> string)
    (argv : list string) (code : Z) (st : State) :
  length argv = 2 ->
  main u256 str checkResult readFileAsString argv = Some (Ok (code, st)) ->
  length (cout st) = checks (solver st)
  /\ Forall (fun line => In line ["sat"; "unsat"; "unknown"]) (cout st).
Proof.
  intros Hargc. destruct argv as [|a0 [|a1 [|a2 argv]]]; try discriminate.
  unfold main. intros H. now apply run_consistent in H as [[_ Hlines] _].
Qed.


(** X14. A form headed by an atom that is none of the commands of [main]
    ends the run with a failed assertion. *)
Theorem unknown_command_aborts (fuel : nat) (inputToParse : string) (st : State)
    (expr : SMTLib2Expression) (m_pos : nat) (cmd : string) :
  inputToParse <> "" ->
  SMTLib2Parser.parseExpression inputToParse 0 = Some (expr, m_pos) ->
  command expr = Ok cmd ->
  ~ In cmd knownCommands ->
  mainLoop u256 str checkResult (S fuel) inputToParse st
  = Some (Throw InternalCompilerError).
Proof.
  intros Hne Hparse Hcmd Hunknown.
  destruct inputToParse as [|ch rest]; [contradiction|].
  cbn [mainLoop]. rewrite Hparse.
  apply command_Ok in Hcmd. destruct Hcmd as [items ->].
  assert (Hneq : forall k, In k knownCommands -> String.eqb cmd k = false).
  { intros k Hk. apply String.eqb_neq. intros ->. contradiction. }
  unfold loopBody. simpl.
  rewrite !Hneq by (simpl; tauto). reflexivity.
Qed.

(** X15. For a form headed by [assert]: the iteration goes through exactly
    when the form has one more element and that element elaborates in the
    environment of [main]; the expression is then the one call added to
    the solver, and environment and output stay.  A failure of the
    elaboration is the failure of the run, and any other number of
    elements a failed assertion. *)
Theorem assert_dispatch (items : list SMTLib2Expression) (st : State) :
  command (List items) = Ok "assert" ->
  (forall c st',
      loopBody u256 str checkResult (List items) st = Ok (c, st') <->
      exists arg e,
        items = [Atom "assert"; arg] /\
        toSMTUtilExpression u256 str arg (variableSorts st) = Ok e /\
        c = Continue /\ st' = asserted e st)
  /\ (forall arg x,
        items = [Atom "assert"; arg] ->
        toSMTUtilExpression u256 str arg (variableSorts st) = Throw x ->
        loopBody u256 str checkResult (List items) st = Throw x)
  /\ (length items <> 2 ->
      loopBody u256 str checkResult (List items) st = Throw InternalCompilerError).
Proof.
  intros Hcmd. apply command_Ok in Hcmd. destruct Hcmd as [rest [= ->]].
  split; [|split].
  - intros c st'. split.
    + unfold loopBody. destruct rest as [|arg [|x rest]]; simpl; try discriminate.
      destruct (toSMTUtilExpression u256 str arg (variableSorts st)) as [e| |] eqn:He;
        simpl; try discriminate.
      intros [= <- <-]. exists arg, e. now repeat split.
    + intros (arg & e & [= ->] & He & -> & ->).
      unfold loopBody. simpl. rewrite He. reflexivity.
  - intros arg x [= ->] He. unfold loopBody. simpl. now rewrite He.
  - intros Hlen. destruct rest as [|arg [|x rest]]; try reflexivity.
    simpl in Hlen. lia.
Qed.

End RunFacts.

(** ** Instances *)

Lemma quoted_atom_read_witness :
  SMTLib2Parser.parseExpression ("|" +:+ "a (b" +:+ "|" +:+ ") c") 0
  = Some (Atom ("|" +:+ "a (b" +:+ "|"), 6).
Proof.
  refine (proj1 (quoted_atom_read "a (b" ") c" _)).
  intros i. do 4 (destruct i as [|i]; [discriminate|]). destruct i; discriminate.
Defined.

Lemma stray_closing_parenthesis_witness :
  SMTLib2Parser.parseExpression " ) (exit)" 0 = Some (Atom "", 1).
Proof.
  refine (proj1 (stray_closing_parenthesis u256_decimal str_decimal unknownVerdict
                   " ) (exit)" 0 _)).
  reflexivity.
Defined.

Lemma leading_whitespace_skipped_witness :
  SMTLib2Parser.parseExpression ("  " +:+ "(exit)") 0
  = SMTLib2Parser.moved 2 (SMTLib2Parser.parseExpression "(exit)" 0).
Proof.
  apply (leading_whitespace_skipped "  " "(exit)").
  intros i c. do 2 (destruct i as [|i]; [intros [= <-]; reflexivity|]).
  destruct i; discriminate.
Defined.


Lemma elaboration_in_larger_environment_witness :
  toSMTUtilExpression u256_decimal str_decimal
    (List [Atom "<"; Atom "x"; Atom "2"]) (<["y" := boolSort]> {[ "x" := realSort ]})
  = Ok (mkExpression "<" [mkExpression "x" [] realSort; mkExpression "2" [] realSort]
          boolSort).
Proof.
  apply (elaboration_in_larger_environment u256_decimal str_decimal _
           {[ "x" := realSort ]}).
  - apply insert_subseteq. reflexivity.
  - reflexivity.
Defined.

Lemma elaboration_defined_witness :
  toSMTUtilExpression u256_decimal str_decimal
    (List [Atom "let"; List [List [Atom "x"; Atom "1"]]; List [Atom "+"; Atom "x"]]) ∅
  <> Undefined.
Proof.
  apply elaboration_defined. simpl. repeat split; discriminate || (right; discriminate).
Defined.

Lemma let_last_binding_wins_witness :
  toSMTUtilExpression u256_decimal str_decimal
    (List [Atom "let"; List (map mkBinding ([("x", Atom "1")] ++ [("x", Atom "b")]));
           Atom "x"])
    {[ "b" := boolSort ]}
  = Ok (mkExpression "let"
          (zip_with bindingNode ["x"] [mkExpression "1" [] realSort]
           ++ [bindingNode "x" (mkExpression "b" [] boolSort);
               mkExpression "x" [] (sort (mkExpression "b" [] boolSort))])
          (sort (mkExpression "b" [] boolSort))).
Proof.
  apply (let_last_binding_wins u256_decimal str_decimal [("x", Atom "1")] "x" ""
           (Atom "b") [mkExpression "1" [] realSort] (mkExpression "b" [] boolSort)
           {[ "b" := boolSort ]}); reflexivity.
Defined.

Lemma environment_matches_declarations_witness :
  (<["y" := boolSort]> (<["x" := realSort]> (∅ : SortEnv))) !! "y"
  = declaredSort "y" [declareVariable "x" realSort; declareVariable "y" boolSort; check].
Proof.
  refine (environment_matches_declarations u256_decimal str_decimal unknownVerdict
           "(declare-fun x () Real)(declare-fun y () Bool)(check-sat)" 0%Z
           {| variableSorts := <["y" := boolSort]> (<["x" := realSort]> ∅);
              solver := [declareVariable "x" realSort; declareVariable "y" boolSort; check];
              cout := ["unknown"] |} _ "y").
  vm_compute. reflexivity.
Defined.

Lemma one_verdict_per_check_witness :
  length ["unknown"; "unknown"] = checks [check; check]
  /\ Forall (fun line => In line ["sat"; "unsat"; "unknown"]) ["unknown"; "unknown"].
Proof.
  refine (one_verdict_per_check u256_decimal str_decimal unknownVerdict
           (fun _ => "(check-sat) ; again
(check-sat)") ["solsmt"; "two.smt2"] 0%Z
           {| variableSorts := ∅; solver := [check; check];
              cout := ["unknown"; "unknown"] |} _ _).
  - reflexivity.
  - vm_compute. reflexivity.
Defined.


Lemma unknown_command_aborts_witness :
  mainLoop u256_decimal str_decimal unknownVerdict 1 "(push 1)(check-sat)" initialState
  = Some (Throw InternalCompilerError).
Proof.
  apply (unknown_command_aborts u256_decimal str_decimal unknownVerdict 0
           "(push 1)(check-sat)" initialState (List [Atom "push"; Atom "1"]) 8 "push").
  - discriminate.
  - reflexivity.
  - reflexivity.
  - simpl. intros H. repeat destruct H as [H|H]; try discriminate; exact H.
Defined.

Lemma assert_dispatch_witness :
  loopBody u256_decimal str_decimal unknownVerdict
    (List [Atom "assert"; Atom "x"; Atom "y"]) initialState
  = Throw InternalCompilerError.
Proof.
  apply (assert_dispatch u256_decimal str_decimal unknownVerdict
           [Atom "assert"; Atom "x"; Atom "y"] initialState eq_refl).
  simpl. lia.
Defined.

(** ** The reader: the atoms it returns; [command]; printing *)

Section ReaderResults.

Variable data : string.

Lemma parseToken_loop_passed n :
  forall start pos i,
    pos <= i < SMTLib2Parser.parseToken_loop data n start false pos ->
    isDelimiter (SMTLib2Parser.token data i) = false.
Proof.
  induction n as [|n IH]; intros start pos i Hi; [simpl in Hi; lia|].
  rewrite parseToken_loop_S in Hi.
  destruct (pos <? SMTLib2Parser.size data)%nat; [|lia].
  destruct (isWhiteSpace (SMTLib2Parser.token data pos)
            || ascii_eqb (SMTLib2Parser.token data pos) "("
            || ascii_eqb (SMTLib2Parser.token data pos) ")") eqn:Hd; [lia|].
  destruct (Nat.eq_dec i pos) as [->|Hne]; [exact Hd|].
  apply (IH start (S pos)). lia.
Qed.

Lemma get_substring start len j c :
  String.get j (substring start len data) = Some c ->
  j < len /\ String.get (start + j) data = Some c.
Proof.
  rewrite !chars_get, chars_substring. intros H.
  destruct (Nat.lt_ge_cases j len) as [Hlt|Hge].
  - rewrite lookup_take_lt, lookup_drop in H by assumption. now split.
  - rewrite lookup_take_ge in H by assumption. discriminate.
Qed.

Lemma parseToken_clean pos : cleanAtom (SMTLib2Parser.parseToken data pos).1.
Proof.
  unfold SMTLib2Parser.parseToken. cbn [fst].
  set (start := SMTLib2Parser.skipWhitespace data pos).
  destruct (ascii_eqb (SMTLib2Parser.token data start) "|") eqn:Hpipe.
  - left.
    assert (Hlt : start < SMTLib2Parser.size data)
      by (eapply token_eqb_lt; [|exact Hpipe]; discriminate).
    destruct (SMTLib2Parser.size data - start) as [|n] eqn:Hn; [lia|].
    rewrite parseToken_loop_quoted_S.
    replace (start <? SMTLib2Parser.size data)%nat with true
      by (symmetry; apply Nat.ltb_lt; lia).
    rewrite Nat.ltb_irrefl, andb_false_l.
    pose proof (parseToken_loop_bounds data n start true (S start) ltac:(lia)) as Hb.
    set (q := SMTLib2Parser.parseToken_loop data n start true (S start)) in *.
    destruct (substring start (q - start) data) as [|c t] eqn:Hsub.
    + apply (f_equal String.length) in Hsub.
      unfold SMTLib2Parser.size in Hb.
      rewrite length_substring in Hsub by lia. simpl in Hsub. lia.
    + exists t. f_equal.
      assert (Hc : String.get 0 (substring start (q - start) data) = Some c)
        by (now rewrite Hsub).
      apply get_substring in Hc. destruct Hc as [_ Hc]. rewrite Nat.add_0_r in Hc.
      apply Ascii.eqb_eq in Hpipe. unfold SMTLib2Parser.token in Hpipe.
      rewrite Hc in Hpipe. exact Hpipe.
  - right. intros j c Hc. apply get_substring in Hc. destruct Hc as [Hj Hc].
    pose proof (parseToken_loop_passed (SMTLib2Parser.size data - start) start start
                  (start + j) ltac:(lia)) as Hd.
    unfold SMTLib2Parser.token in Hd. now rewrite Hc in Hd.
Qed.

Lemma parse_fuel_clean fuel :
  (forall pos e q,
      SMTLib2Parser.parseExpression_fuel data fuel pos = Some (e, q) ->
      everyAtom cleanAtom e)
  /\ (forall pos subs q,
        SMTLib2Parser.parseSubExpressions data fuel pos = Some (subs, q) ->
        allNodes (everyAtom cleanAtom) subs).
Proof.
  induction fuel as [|fuel [IHE IHS]]; [split; discriminate|].
  split.
  - intros pos e q. cbn [SMTLib2Parser.parseExpression_fuel].
    destruct (ascii_eqb _ "(").
    + destruct (SMTLib2Parser.parseSubExpressions data fuel _) as [[subs p2]|] eqn:Hs;
        [|discriminate].
      intros [= <- _]. simpl. now apply (IHS _ _ _ Hs).
    + pose proof (parseToken_clean (SMTLib2Parser.skipWhitespace data pos)) as Hc.
      destruct (SMTLib2Parser.parseToken data _) as [sv p2].
      intros [= <- _]. exact Hc.
  - intros pos subs q. cbn [SMTLib2Parser.parseSubExpressions].
    destruct (SMTLib2Parser.moreSubExpressions data pos); [|intros [= <- _]; exact I].
    destruct (SMTLib2Parser.parseExpression_fuel data fuel pos) as [[e p1]|] eqn:He;
      [|discriminate].
    destruct (SMTLib2Parser.parseSubExpressions data fuel _) as [[subs' p2]|] eqn:Hs;
      [|discriminate].
    intros [= <- _]. split; [now apply (IHE _ _ _ He) | now apply (IHS _ _ _ Hs)].
Qed.

(** X17. What the reader returns holds no delimiter outside quotes: every
    atom of the tree starts with the quote or has neither white space nor
    a parenthesis in it. *)
Theorem parsed_atoms_clean (pos : nat) (e : SMTLib2Expression) (pos' : nat) :
  SMTLib2Parser.parseExpression data pos = Some (e, pos') ->
  everyAtom cleanAtom e.
Proof. apply (proj1 (parse_fuel_clean _)). Qed.

End ReaderResults.

(** X18. [command] never takes [front] of an empty list: it returns the
    head of a list that starts with an atom, throws [bad_variant_access]
    on an atom and fails an assertion on the empty list and on a list that
    starts with a list. *)
Theorem command_guarded (e : SMTLib2Expression) :
  command e <> Undefined
  /\ (forall cmd, command e = Ok cmd <-> exists rest, e = List (Atom cmd :: rest))
  /\ (forall x, command e = Throw x ->
        (x = bad_variant_access /\ exists sv, e = Atom sv)
        \/ (x = InternalCompilerError /\
            (e = List [] \/ exists l rest, e = List (List l :: rest)))).
Proof.
  split; [|split].
  - destruct e as [sv|[|[cmd|l] rest]]; discriminate.
  - intros cmd. split.
    + destruct e as [sv|[|[cmd'|l] rest]]; simpl; try discriminate.
      intros [= <-]. eauto.
    + intros [rest ->]. reflexivity.
  - intros x. destruct e as [sv|[|[cmd|l] rest]]; simpl; intros [= <-].
    + left. eauto.
    + right. split; [reflexivity|now left].
    + right. split; [reflexivity|]. right. eauto.
Qed.

Lemma append_nil_r s : s +:+ "" = s.
Proof. apply chars_inj. rewrite chars_append. apply app_nil_r. Qed.

(** X19. Printing tells [printable] trees apart (unquoted atoms that are
    not empty, hold no white space and no parenthesis and start with
    neither the quote nor the character 0; quoted atoms with no quote
    inside): two of them with the same text are the same tree, and two
    different ones have different texts. *)
Theorem toString_injective (e1 e2 : SMTLib2Expression) :
  printable e1 -> printable e2 ->
  (toString e1 = toString e2 -> e1 = e2)
  /\ (e1 <> e2 -> toString e1 <> toString e2).
Proof.
  intros H1 H2.
  assert (Hinj : toString e1 = toString e2 -> e1 = e2).
  { intros Heq.
    pose proof (printable_parse e1 "" H1 I) as P1.
    pose proof (printable_parse e2 "" H2 I) as P2.
    rewrite append_nil_r in P1, P2. rewrite Heq in P1. rewrite P1 in P2.
    now injection P2. }
  split; [exact Hinj|]. intros Hne Heq. now apply Hne, Hinj.
Qed.

Lemma parsed_atoms_clean_witness :
  everyAtom cleanAtom (List [Atom "assert"; List [Atom "|a b|"; Atom "c"]]).
Proof.
  apply (parsed_atoms_clean "(assert (|a b| c))" 0 _ 18). reflexivity.
Defined.

Lemma toString_injective_witness :
  List [Atom "a"; List [Atom "b"]] <> List [List [Atom "a"]; Atom "b"]
  /\ toString (List [Atom "a"; List [Atom "b"]])
     <> toString (List [List [Atom "a"]; Atom "b"]).
Proof.
  split; [discriminate|].
  refine (proj2 (toString_injective
                   (List [Atom "a"; List [Atom "b"]])
                   (List [List [Atom "a"]; Atom "b"]) _ _) _);
    [| |discriminate];
    repeat match goal with
           | |- Forall _ _ => constructor
           | |- printable (List _) => apply printable_list
           | |- printable (Atom _) => apply printable_plain; reflexivity
           end.
Defined.

Lemma mainLoop_allWhiteSpace_witness :
  mainLoop u256_decimal str_decimal unknownVerdict 1 newline initialState
  = Some (Throw bad_variant_access).
Proof.
  apply (mainLoop_allWhiteSpace u256_decimal str_decimal unknownVerdict 0 newline).
  - discriminate.
  - intros i c. destruct i as [|i]; [intros [= <-]; reflexivity|].
    destruct i; discriminate.
Defined.

(** ** [parseRational]: the stripped suffixes *)

Section RationalSuffix.

Variable u256 : string -> option N.

Lemma append_assoc_r s t u : s +:+ (t +:+ u) = (s +:+ t) +:+ u.
Proof. apply chars_inj. rewrite !chars_append. apply app_assoc. Qed.

Lemma append_not_empty s t : s <> "" -> s +:+ t <> "".
Proof. destruct s; [contradiction|discriminate]. Qed.

(** X21. [parseRational] strips every [.0] at the end of an atom, as long
    as something is left in front: the number is the one of the stem, and
    it is [u256] of the stem when the stem does not itself end so. *)
Theorem parseRational_trailing_zeros (s : string) (n : nat) :
  s <> "" ->
  parseRational u256 (s +:+ dotZeros n) = parseRational u256 s
  /\ (endsWithDotZero s = false -> parseRational u256 (s +:+ dotZeros n) = u256 s).
Proof.
  intros Hs.
  assert (H : parseRational u256 (s +:+ dotZeros n) = parseRational u256 s).
  { induction n as [|n IH]; cbn [dotZeros].
    - now rewrite append_nil_r.
    - rewrite append_assoc_r, parseRational_strip by (now apply append_not_empty).
      exact IH. }
  split; [exact H|].
  intros He. rewrite H, parseRational_equation, He. reflexivity.
Qed.

End RationalSuffix.

Lemma parseRational_trailing_zeros_witness :
  parseRational u256_decimal ("12" +:+ dotZeros 2) = parseRational u256_decimal "12".
Proof.
  refine (proj1 (parseRational_trailing_zeros u256_decimal "12" 2 _)). discriminate.
Defined.
